(** * Obsidian Sspai TOC: a shallow embedding of the outline plugin

    The development follows the most complete version of the plugin class
    [SspaiTocPlugin] in the repository (the one that has
    [areHeadersStructurallyEqual], [stripMarkdown] and the [specificLine]
    argument of [highlightActiveHeader]); for the reading line of preview
    mode it also records the computation of [main.ts].

    Modelling conventions:
    - a JavaScript string is its sequence of UTF-16 code units, [list N];
    - pixel quantities (scroll offsets, rectangle tops, client heights) are
      rationals [Q]; line numbers, levels and indices are integers [Z];
    - a TOC item is the [div.sspai-toc-item] element: its two data
      attributes, the text of its span and its two visibility classes;
    - the plugin object is a record that every method takes and returns;
    - the host (Obsidian view, CodeMirror editor, rendered DOM) is a record
      of the values the methods read from it. *)

From Stdlib Require Import ZArith QArith Lqa Strings.String Strings.Ascii Lia.
From stdpp Require Import base list sorting gmap.

Open Scope Z_scope.

(** ** JavaScript strings *)

Abbreviation jsstring := (list N).

Definition ch (a : ascii) : N := N_of_ascii a.

Fixpoint js (s : string) : jsstring :=
  match s with
  | EmptyString => []
  | String a r => ch a :: js r
  end.

Definition jsstring_eqb (a b : jsstring) : bool := bool_decide (a = b).

(** ** The regular expressions of [stripMarkdown]

    A backtracking matcher for the fragment of ECMAScript regular
    expressions the plugin uses: literal characters, (negated) character
    classes, sequence, ordered alternation, greedy and lazy repetition of a
    class, capture groups and backreferences.  Priorities are those of the
    ECMAScript matcher: the left alternative first, a greedy repetition
    longest first, a lazy repetition shortest first. *)

Module Regex.

Inductive regex : Type :=
| Eps
| Chr (c : N)
| Cls (negated : bool) (set : list N)
| Seq (a b : regex)
| Alt (a b : regex)
| Star (greedy : bool) (negated : bool) (set : list N)
| Group (n : nat) (a : regex)
| Backref (n : nat).

Definition seqs (rs : list regex) : regex := foldr Seq Eps rs.

(** [c+] over a class is [c c*]. *)
Definition plus (negated : bool) (set : list N) : regex :=
  Seq (Cls negated set) (Star true negated set).

Definition inClass (negated : bool) (set : list N) (c : N) : bool :=
  xorb negated (existsb (N.eqb c) set).

(** [.] without the [s] flag: anything but a line terminator. *)
Definition lineTerminators : list N := [10; 13; 8232; 8233]%N.

Definition captures := nat -> jsstring.

Definition noCaptures : captures := fun _ => [].

Definition setCapture (n : nat) (v : jsstring) (caps : captures) : captures :=
  fun m => if Nat.eqb m n then v else caps m.

Fixpoint stripPrefix (p s : jsstring) : option jsstring :=
  match p, s with
  | [], _ => Some s
  | a :: p', b :: s' => if N.eqb a b then stripPrefix p' s' else None
  | _ :: _, [] => None
  end.

Section Matcher.
Context {R : Type}.

Fixpoint starGreedy (p : N -> bool) (s : jsstring)
    (k : jsstring -> option R) : option R :=
  match s with
  | c :: s' =>
      if p c then
        match starGreedy p s' k with
        | Some r => Some r
        | None => k s
        end
      else k s
  | [] => k []
  end.

Fixpoint starLazy (p : N -> bool) (s : jsstring)
    (k : jsstring -> option R) : option R :=
  match k s with
  | Some r => Some r
  | None =>
      match s with
      | c :: s' => if p c then starLazy p s' k else None
      | [] => None
      end
  end.

Fixpoint rmatch (r : regex) (s : jsstring) (caps : captures)
    (k : jsstring -> captures -> option R) : option R :=
  match r with
  | Eps => k s caps
  | Chr c =>
      match s with
      | x :: s' => if N.eqb x c then k s' caps else None
      | [] => None
      end
  | Cls negated set =>
      match s with
      | x :: s' => if inClass negated set x then k s' caps else None
      | [] => None
      end
  | Seq a b => rmatch a s caps (fun s1 c1 => rmatch b s1 c1 k)
  | Alt a b =>
      match rmatch a s caps k with
      | Some x => Some x
      | None => rmatch b s caps k
      end
  | Star true negated set =>
      starGreedy (inClass negated set) s (fun s1 => k s1 caps)
  | Star false negated set =>
      starLazy (inClass negated set) s (fun s1 => k s1 caps)
  | Group n a =>
      rmatch a s caps
        (fun s1 c1 => k s1 (setCapture n (take (length s - length s1) s) c1))
  | Backref n =>
      match stripPrefix (caps n) s with
      | Some s' => k s' caps
      | None => None
      end
  end.
End Matcher.

(** One attempt at the current position: the captures and the rest of the
    input after the match. *)
Definition exec (r : regex) (s : jsstring) : option (captures * jsstring) :=
  rmatch r s noCaptures (fun rest caps => Some (caps, rest)).

(** [text.replace(/r/g, '$grp')]: leftmost matches, not overlapping, each
    replaced by the text of group [grp].  [skip] counts the characters of
    the last match that are still to be passed over. *)
Fixpoint replaceFrom (r : regex) (grp : nat) (skip : nat) (s : jsstring)
    : jsstring :=
  match s with
  | [] =>
      match skip, exec r [] with
      | O, Some (caps, _) => caps grp
      | _, _ => []
      end
  | c :: s' =>
      match skip with
      | S n => replaceFrom r grp n s'
      | O =>
          match exec r s with
          | Some (caps, rest) =>
              match (length s - length rest)%nat with
              | O => caps grp ++ c :: replaceFrom r grp 0 s'
              | S n => caps grp ++ replaceFrom r grp n s'
              end
          | None => c :: replaceFrom r grp 0 s'
          end
      end
  end.

Definition replaceAll (r : regex) (grp : nat) (s : jsstring) : jsstring :=
  replaceFrom r grp 0 s.

End Regex.

Import Regex.

(** Step 1, links, [/\[([^\]]+)\]\([^)]+\)/g]: an opening bracket, group 1 =
    one or more characters other than a closing bracket, a closing bracket,
    then a parenthesised run of one or more characters other than a closing
    parenthesis. *)
Definition linkRe : regex :=
  seqs [Chr (ch "["); Group 1 (plus true [ch "]"]); Chr (ch "]");
        Chr (ch "("); plus true [ch ")"]; Chr (ch ")")].

(** Step 2, bold, [/(\*\*|__)(.*?)\1/g]: group 1 = two stars or two
    underscores, group 2 = a lazy run of characters that are not line
    terminators, then group 1 again. *)
Definition boldRe : regex :=
  seqs [Group 1 (Alt (Seq (Chr (ch "*")) (Chr (ch "*")))
                     (Seq (Chr (ch "_")) (Chr (ch "_"))));
        Group 2 (Star false true lineTerminators); Backref 1].

(** Step 2, italic, [/(\*|_)(.*?)\1/g]: as bold with a single star or
    underscore. *)
Definition italicRe : regex :=
  seqs [Group 1 (Alt (Chr (ch "*")) (Chr (ch "_")));
        Group 2 (Star false true lineTerminators); Backref 1].

(** Step 3, code, [/`([^`]+)`/g]: a backtick, group 1 = one or more
    characters other than a backtick, a backtick. *)
Definition codeRe : regex :=
  seqs [Chr (ch "`"); Group 1 (plus true [ch "`"]); Chr (ch "`")].

(** Step 4, images, [/!\[([^\]]{0,})\]\([^)]+\)/g] (the source writes the
    star quantifier for [{0,}]): an exclamation mark, then the link pattern
    with a group 1 that may be empty. *)
Definition imageRe : regex :=
  seqs [Chr (ch "!"); Chr (ch "["); Group 1 (Star true true [ch "]"]);
        Chr (ch "]"); Chr (ch "("); plus true [ch ")"]; Chr (ch ")")].

(** [stripMarkdown]: the five replacements in the order of the source:
    links, bold, italic, code, and images last. *)
Definition stripMarkdown (text : jsstring) : jsstring :=
  let clean := replaceAll linkRe 1 text in
  let clean := replaceAll boldRe 2 clean in
  let clean := replaceAll italicRe 2 clean in
  let clean := replaceAll codeRe 1 clean in
  let clean := replaceAll imageRe 1 clean in
  clean.

(** The order the comment inside [stripMarkdown] asks for ("handle images
    specifically before links"): the same five replacements, images first. *)
Definition stripMarkdown_images_first (text : jsstring) : jsstring :=
  let clean := replaceAll imageRe 1 text in
  let clean := replaceAll linkRe 1 clean in
  let clean := replaceAll boldRe 2 clean in
  let clean := replaceAll italicRe 2 clean in
  let clean := replaceAll codeRe 1 clean in
  clean.

(** ** Data model *)

(** [interface TocItem]: one heading of the document, as the metadata cache
    gives it. *)
Record TocItem : Type := mkTocItem {
  toc_level : Z;
  toc_text : jsstring;
  toc_line : Z;
  toc_id : jsstring
}.

(** One [div.sspai-toc-item] of the panel.  [data_line] and [data_level] are
    the two data attributes: [renderToc] writes both on every item as the
    decimal text of an integer, and the readers parse them back, so they are
    kept as integers.  [span_text] is the text of the [.sspai-toc-text]
    span; [cls_active] and [cls_parent_visible] are the two classes that
    [updateActiveItem] toggles. *)
Record Item : Type := mkItem {
  data_level : Z;
  data_line : Z;
  span_text : jsstring;
  cls_active : bool;
  cls_parent_visible : bool
}.

(** The fields of the plugin object that the outline logic reads and
    writes.  [containerEl] is [None] for [null]; otherwise it holds the
    items in the order of [querySelectorAll('.sspai-toc-item')]. *)
Record Plugin : Type := mkPlugin {
  containerEl : option (list Item);
  lastActiveIndex : Z;
  lastHeadings : list TocItem;
  blockScrollEvent : bool
}.

(** The field initialisers of the class. *)
Definition initialPlugin : Plugin :=
  {| containerEl := None; lastActiveIndex := -1;
     lastHeadings := []; blockScrollEvent := false |}.

(** ** The host *)

Inductive Mode : Type := source | preview.

(** The scroll container: [scrollTop], [clientHeight] and the top and left
    of [getBoundingClientRect()]. *)
Record Scroller : Type := mkScroller {
  scrollTop : Q;
  clientHeight : Q;
  rect_top : Q;
  rect_left : Q
}.

(** The CodeMirror view behind [editor.cm].  [lineAtCoords x y] is
    [cm.state.doc.lineAt(cm.posAtCoords({x, y})).number] and
    [lineAtHeight t] is [cm.state.doc.lineAt(cm.lineBlockAtHeight(t).from).number];
    [None] stands for a [null] position or block and for a call that
    throws, which the [try ... catch] around them swallows. *)
Record CodeMirror : Type := mkCodeMirror {
  lineAtCoords : Q -> Q -> option Z;
  lineAtHeight : Q -> option Z
}.

(** [view.editor]: the two fields of [getScrollInfo()] and [cm]. *)
Record Editor : Type := mkEditor {
  scrollInfo_top : Q;
  scrollInfo_height : option Q;
  cm : option CodeMirror
}.

(** A rendered heading element [h1] .. [h6]: the top of its bounding
    rectangle, its [innerText], its [data-heading] attribute and the number
    in its tag name. *)
Record DomHeader : Type := mkDomHeader {
  hdr_top : Q;
  hdr_innerText : jsstring;
  hdr_dataHeading : option jsstring;
  hdr_level : Z
}.

(** What the methods read from a [MarkdownView]: [getMode()], the result
    of [getScroller(view)], [view.editor], the heading elements of
    [view.contentEl] that are neither embedded nor the inline title, in
    document order, the result of [getTocHeaders(view)], and [view.file],
    the path of the open file, [None] for [null]. *)
Record View : Type := mkView {
  getMode : Mode;
  getScroller : option Scroller;
  editor : option Editor;
  domHeaders : list DomHeader;
  getTocHeaders : list TocItem;
  file : option jsstring
}.

Definition Qlt_bool (a b : Q) : bool := negb (Qle_bool b a).

(** ** [areHeadersStructurallyEqual] *)

(** The test of the loop body:
    [h1.level !== h2.level || h1.text !== h2.text]. *)
Definition structureDiffers (h1 h2 : TocItem) : bool :=
  negb (toc_level h1 =? toc_level h2)
  || negb (jsstring_eqb (toc_text h1) (toc_text h2)).

(** The [for] loop: [n] iterations are left, [i] is the loop index. *)
Fixpoint headersLoop (n i : nat) (oldHeaders newHeaders : list TocItem) : bool :=
  match n with
  | O => true
  | S n' =>
      match oldHeaders !! i, newHeaders !! i with
      | Some h1, Some h2 =>
          if structureDiffers h1 h2
          then false
          else headersLoop n' (S i) oldHeaders newHeaders
      | _, _ => false
      end
  end.

Definition areHeadersStructurallyEqual (oldHeaders newHeaders : list TocItem) : bool :=
  if negb (length oldHeaders =? length newHeaders)%nat then false
  else headersLoop (length oldHeaders) 0 oldHeaders newHeaders.

(** ** [updateActiveItem] *)

Definition clearVisibility (it : Item) : Item :=
  {| data_level := data_level it; data_line := data_line it;
     span_text := span_text it;
     cls_active := false; cls_parent_visible := false |}.

Definition addActive (it : Item) : Item :=
  {| data_level := data_level it; data_line := data_line it;
     span_text := span_text it;
     cls_active := true; cls_parent_visible := cls_parent_visible it |}.

Definition addParentVisible (it : Item) : Item :=
  {| data_level := data_level it; data_line := data_line it;
     span_text := span_text it;
     cls_active := cls_active it; cls_parent_visible := true |}.

(** The backward loop [for (i = activeIndex - 1; i >= 0; i--)]: [n] is
    [i + 1], [found] is the set [parentLevelsFound]. *)
Fixpoint markParents (activeLevel : Z) (n : nat) (found : gset Z)
    (items : list Item) : list Item :=
  match n with
  | O => items
  | S i =>
      match items !! i with
      | Some it =>
          let itemLevel := data_level it in
          if (itemLevel <? activeLevel) && negb (bool_decide (itemLevel ∈ found))
          then
            let items' := alter addParentVisible i items in
            if itemLevel =? 1 then items'
            else markParents activeLevel i ({[itemLevel]} ∪ found) items'
          else markParents activeLevel i found items
      | None => items
      end
  end.

Definition updateActiveItem (items : list Item) (activeIndex : Z) : list Item :=
  let items := clearVisibility <$> items in
  if (0 <=? activeIndex) && (activeIndex <? Z.of_nat (length items)) then
    let a := Z.to_nat activeIndex in
    match items !! a with
    | Some activeItem =>
        markParents (data_level activeItem) a ∅ (alter addActive a items)
    | None => items
    end
  else items.

(** ** [renderToc] and [updateTocPositions] *)

Definition createItem (header : TocItem) : Item :=
  {| data_level := toc_level header; data_line := toc_line header;
     span_text := stripMarkdown (toc_text header);
     cls_active := false; cls_parent_visible := false |}.

(** [renderToc(view, headers?)]: [headers = None] is the call without the
    second argument. *)
Definition renderToc (p : Plugin) (view : View) (headers : option (list TocItem))
    : Plugin :=
  match containerEl p with
  | None => p
  | Some _ =>
      let headers := match headers with
                     | Some hs => hs
                     | None => getTocHeaders view
                     end in
      {| containerEl := Some (createItem <$> headers);
         lastActiveIndex := lastActiveIndex p;
         lastHeadings := headers;
         blockScrollEvent := blockScrollEvent p |}
  end.

Definition setLine (it : Item) (l : Z) : Item :=
  {| data_level := data_level it; data_line := l;
     span_text := span_text it;
     cls_active := cls_active it; cls_parent_visible := cls_parent_visible it |}.

Definition patchLines (items : list Item) (headers : list TocItem) : list Item :=
  imap (fun index item =>
          match headers !! index with
          | Some h => setLine item (toc_line h)
          | None => item
          end) items.

Definition updateTocPositions (p : Plugin) (headers : list TocItem) : Plugin :=
  match containerEl p with
  | None => p
  | Some items =>
      if negb (length items =? length headers)%nat then p
      else
        {| containerEl := Some (patchLines items headers);
           lastActiveIndex := lastActiveIndex p;
           lastHeadings := lastHeadings p;
           blockScrollEvent := blockScrollEvent p |}
  end.

(** ** [highlightActiveHeader] *)

(** *** Source (editor) mode: the line at the top of the editor *)

(** The estimate made when no specific line was passed: the offset is
    [h / 3000], and the line is read from CodeMirror at the screen
    coordinates of the scroller, or, without a scroller, at the height
    [scrollInfo.top + userOffset]. *)
Definition estimateLine (scrollEl : option Scroller) (ed : Editor) : option Z :=
  let h : Q :=
    match scrollEl with
    | Some s => clientHeight s
    | None =>
        match scrollInfo_height ed with
        | Some x => if Qeq_bool x 0 then 800%Q else x
        | None => 800%Q
        end
    end in
  let userOffset := (h / 3000)%Q in
  let targetHeight := (scrollInfo_top ed + userOffset)%Q in
  match cm ed with
  | Some c =>
      match scrollEl with
      | Some s =>
          let topY := (rect_top s + userOffset)%Q in
          let padX := (rect_left s + 20)%Q in
          lineAtCoords c padX topY
      | None => lineAtHeight c targetHeight
      end
  | None => None
  end.

(** The scan of the items: [i] is the loop index, [activeIndex] the
    variable of that name; the loop stops at the first item whose line is
    after [currentLine]. *)
Fixpoint scanItems (specific : bool) (currentLine : Z) (i : Z) (items : list Item)
    (activeIndex : Z) : Z :=
  match items with
  | [] => activeIndex
  | item :: rest =>
      if data_line item <=? currentLine
      then scanItems specific currentLine (i + 1) rest
             (if specific then i else i + 1)
      else activeIndex
  end.

(** The loop followed by the overflow guard
    [if (activeIndex >= items.length) activeIndex = items.length - 1]. *)
Definition scanActiveIndex (specific : bool) (currentLine : Z) (items : list Item) : Z :=
  let activeIndex := scanItems specific currentLine 0 items (-1) in
  if activeIndex >=? Z.of_nat (length items)
  then Z.of_nat (length items) - 1
  else activeIndex.

(** The index handed to [updateActiveItem] in source mode: the scan, then
    the top-of-document override. *)
Definition sourceActiveIndex (view : View) (specific : bool) (currentLine : Z)
    (items : list Item) : Z :=
  let activeIndex := scanActiveIndex specific currentLine items in
  match editor view with
  | Some ed => if Qlt_bool (scrollInfo_top ed) 50 then 0 else activeIndex
  | None => activeIndex
  end.

(** *** Preview (reading) mode: the heading element that is being read *)

(** [targetTop = containerRect.top + scrollEl.clientHeight / 2000 - 20]. *)
Definition previewTargetTop (scrollEl : Scroller) : Q :=
  let userOffset := (clientHeight scrollEl / 2000)%Q in
  (rect_top scrollEl + userOffset - 20)%Q.

(** The loop over the heading elements: every heading at or above the
    target selects its successor, or itself when it is the last; the loop
    stops at the first heading below the target. *)
Fixpoint findActiveDomHeader (targetTop : Q) (hs : list DomHeader)
    (activeDomHeader : option DomHeader) : option DomHeader :=
  match hs with
  | [] => activeDomHeader
  | h :: rest =>
      if Qle_bool (hdr_top h) targetTop
      then findActiveDomHeader targetTop rest
             (Some (match rest with next :: _ => next | [] => h end))
      else activeDomHeader
  end.

(** [innerText], or the [data-heading] attribute when that is empty. *)
Definition headerTextOf (h : DomHeader) : jsstring :=
  match hdr_innerText h with
  | [] => match hdr_dataHeading h with Some t => t | None => [] end
  | t => t
  end.

(** The indices of the items whose level and text are those of the
    heading, in ascending order. *)
Fixpoint matchingFrom (i : Z) (items : list Item) (level : Z) (headerText : jsstring)
    : list Z :=
  match items with
  | [] => []
  | item :: rest =>
      if (data_level item =? level) && jsstring_eqb (span_text item) headerText
      then i :: matchingFrom (i + 1) rest level headerText
      else matchingFrom (i + 1) rest level headerText
  end.

Definition matchingIndices (items : list Item) (level : Z) (headerText : jsstring)
    : list Z :=
  matchingFrom 0 items level headerText.

(** One step of the proximity loop.  The accumulator is
    [(minDistance, bestMatch)], with [None] for [Infinity]. *)
Definition closerStep (last : Z) (acc : option Z * Z) (idx : Z) : option Z * Z :=
  let distance := Z.abs (idx - last) in
  match fst acc with
  | None => (Some distance, idx)
  | Some minDistance =>
      if distance <? minDistance then (Some distance, idx) else acc
  end.

Definition closestMatch (last : Z) (first : Z) (matching : list Z) : Z :=
  snd (fold_left (closerStep last) matching (None, first)).

(** [matchedIndex] after the three-way test on [matchingIndices.length]. *)
Definition chooseMatch (last : Z) (matching : list Z) : Z :=
  match matching with
  | [] => -1
  | [only] => only
  | first :: _ :: _ => closestMatch last first matching
  end.

Definition setActiveIndex (p : Plugin) (items : list Item) (index : Z) : Plugin :=
  {| containerEl := Some (updateActiveItem items index);
     lastActiveIndex := index;
     lastHeadings := lastHeadings p;
     blockScrollEvent := blockScrollEvent p |}.

(** The text-matching part of the preview branch, after the
    top-of-document test. *)
Definition previewMatch (p : Plugin) (view : View) (scrollEl : Scroller)
    (items : list Item) : Plugin :=
  let targetTop := previewTargetTop scrollEl in
  match findActiveDomHeader targetTop (domHeaders view) None with
  | Some activeDomHeader =>
      match headerTextOf activeDomHeader with
      | [] => p
      | headerText =>
          let level := hdr_level activeDomHeader in
          let matchedIndex :=
            chooseMatch (lastActiveIndex p) (matchingIndices items level headerText) in
          if matchedIndex >=? 0 then setActiveIndex p items matchedIndex else p
      end
  | None => p
  end.

(** [highlightActiveHeader(view, specificLine?)]. *)
Definition highlightActiveHeader (p : Plugin) (view : View) (specificLine : option Z)
    : Plugin :=
  match containerEl p with
  | None => p
  | Some items =>
      let currentLine := match specificLine with Some l => l | None => -1 end in
      let scrollEl := getScroller view in
      match getMode view with
      | source =>
          let currentLine :=
            match editor view with
            | Some ed =>
                if currentLine =? -1 then
                  match estimateLine scrollEl ed with
                  | Some l => l
                  | None => currentLine
                  end
                else currentLine
            | None => currentLine
            end in
          let specific := match specificLine with Some _ => true | None => false end in
          let activeIndex := sourceActiveIndex view specific currentLine items in
          {| containerEl := Some (updateActiveItem items activeIndex);
             lastActiveIndex :=
               if activeIndex >=? 0 then activeIndex else lastActiveIndex p;
             lastHeadings := lastHeadings p;
             blockScrollEvent := blockScrollEvent p |}
      | preview =>
          match scrollEl with
          | Some s =>
              if Qlt_bool (scrollTop s) 50 && negb (length items =? 0)%nat
              then setActiveIndex p items 0
              else previewMatch p view s items
          | None => p
          end
      end
  end.

(** ** The callers *)

(** The body of [updateToc] between the creation of the container and the
    registration of the event handlers; [None] is no active Markdown view. *)
Definition updateToc (p : Plugin) (activeView : option View) : Plugin :=
  match activeView with
  | None => p
  | Some view =>
      let p :=
        match containerEl p with
        | None =>
            {| containerEl := Some []; lastActiveIndex := lastActiveIndex p;
               lastHeadings := lastHeadings p;
               blockScrollEvent := blockScrollEvent p |}
        | Some _ => p
        end in
      let newHeaders := getTocHeaders view in
      if areHeadersStructurallyEqual (lastHeadings p) newHeaders then
        let p := updateTocPositions p newHeaders in
        let p := {| containerEl := containerEl p;
                    lastActiveIndex := lastActiveIndex p;
                    lastHeadings := newHeaders;
                    blockScrollEvent := blockScrollEvent p |} in
        highlightActiveHeader p view None
      else renderToc p view (Some newHeaders)
  end.

(** The click handler that [renderToc] installs on the item [index] when
    it renders for [view], up to the request to open the file at the
    item's line: [if (!view.file) return;], then the index is stored, the
    scroll guard is set and, when there is a panel, the items are marked. *)
Definition onItemClick (p : Plugin) (view : View) (index : Z) : Plugin :=
  match file view with
  | None => p
  | Some _ =>
      {| containerEl :=
           match containerEl p with
           | Some items => Some (updateActiveItem items index)
           | None => None
           end;
         lastActiveIndex := index;
         lastHeadings := lastHeadings p;
         blockScrollEvent := true |}
  end.

(** The scroll listener of [registerDomEvents]. *)
Definition onScroll (p : Plugin) (view : View) : Plugin :=
  if blockScrollEvent p then p else highlightActiveHeader p view None.

(** [handleCursorActivity]: [cursorLine] is [view.editor.getCursor().line]. *)
Definition handleCursorActivity (p : Plugin) (view : View) (cursorLine : Z) : Plugin :=
  match getMode view, editor view with
  | source, Some _ => highlightActiveHeader p view (Some cursorLine)
  | _, _ => p
  end.

(** ** The reading line in [main.ts] *)

(** The computation of [previewTargetTop] as [main.ts] has it:
    [targetTop = containerRect.top + scrollEl.clientHeight / 3]. *)
Module MainTs.

Definition previewTargetTop (scrollEl : Scroller) : Q :=
  let userOffset := (clientHeight scrollEl / 3)%Q in
  (rect_top scrollEl + userOffset)%Q.

End MainTs.

(** * Vocabulary of the properties *)

(** ** Structural equality *)

(** The equality the specification describes: same length, and at every
    index equal levels and equal labels after markup stripping. *)
Definition structurallyEqual_spec (A B : list TocItem) : Prop :=
  length A = length B /\
  forall (i : nat) (a b : TocItem),
    A !! i = Some a -> B !! i = Some b ->
    toc_level a = toc_level b /\
    stripMarkdown (toc_text a) = stripMarkdown (toc_text b).

(** The equality the code computes: the same with the heading texts as
    they are in the document. *)
Definition structurallyEqual_raw (A B : list TocItem) : Prop :=
  length A = length B /\
  forall (i : nat) (a b : TocItem),
    A !! i = Some a -> B !! i = Some b ->
    toc_level a = toc_level b /\ toc_text a = toc_text b.

(** ** Images in heading texts *)

(** A character without a role in the five patterns. *)
Definition plainChar (c : N) : Prop :=
  c <> ch "[" /\ c <> ch "]" /\ c <> ch "!" /\
  c <> ch "*" /\ c <> ch "_" /\ c <> ch "`".

(** The heading text that is one image, [alt] in brackets after an
    exclamation mark and [url] in parentheses. *)
Definition imageText (alt url : jsstring) : jsstring :=
  ch "!" :: ch "[" :: alt ++ ch "]" :: ch "(" :: url ++ [ch ")"].

(** ** Source mode *)

(** The number of leading items whose line is at or before [target]: the
    items the loop of [scanItems] passes before it stops. *)
Fixpoint readPrefix (target : Z) (items : list Item) : nat :=
  match items with
  | [] => O
  | item :: rest =>
      if data_line item <=? target then S (readPrefix target rest) else O
  end.

(** The items are in document order: their lines do not decrease. *)
Definition documentOrder (items : list Item) : Prop :=
  StronglySorted Z.le (data_line <$> items).

(** [i] is the index of the last item whose line is at or before [target]. *)
Definition lastAtOrBefore (items : list Item) (target : Z) (i : nat) : Prop :=
  (exists item, items !! i = Some item /\ data_line item <= target) /\
  (forall j item, items !! j = Some item -> (i < j)%nat -> target < data_line item).


(** ** Preview mode *)

(** The item at index [j] has the level and the text of the heading. *)
Definition matches (items : list Item) (level : Z) (headerText : jsstring) (j : nat)
    : Prop :=
  exists item, items !! j = Some item /\
               data_level item = level /\ span_text item = headerText.

(** The heading that the text matching works with: the level and the text
    of the selected heading element, when there is one and its text is not
    empty. *)
Definition previewCandidate (view : View) (scrollEl : Scroller)
    : option (Z * jsstring) :=
  match findActiveDomHeader (previewTargetTop scrollEl) (domHeaders view) None with
  | Some h =>
      match headerTextOf h with
      | [] => None
      | headerText => Some (hdr_level h, headerText)
      end
  | None => None
  end.

(** The viewport is away from the top-of-document region. *)
Definition awayFromTop (scrollEl : Scroller) : Prop := (50 <= scrollTop scrollEl)%Q.

(** The scroll offset that the resolver compares with 50: [scrollTop] of
    the scroller in preview mode, [getScrollInfo().top] of the editor in
    source mode. *)
Definition viewportScrollTop (view : View) : option Q :=
  match getMode view with
  | source => scrollInfo_top <$> editor view
  | preview => scrollTop <$> getScroller view
  end.

(** ** Ancestors *)

Definition levelAt (items : list Item) (k : nat) : option Z :=
  data_level <$> items !! k.

(** What the backward loop does to index [j], when it runs over the
    indices below [n] with the levels in [found] already seen: [j] is
    marked when its level is smaller than the active level and not yet
    seen, no index between [j] and [n] has the same level, and no index
    between them is a level-1 entry that the loop marks (after which it
    stops). *)
Definition markedFrom (L : Z) (n : nat) (found : gset Z) (items : list Item)
    (j : nat) : Prop :=
  (j < n)%nat /\
  exists lj, levelAt items j = Some lj /\ lj < L /\ (lj ∉ found) /\
    forall k lk, (j < k < n)%nat -> levelAt items k = Some lk ->
      lk <> lj /\ ~ (lk = 1 /\ 1 < L /\ (1 ∉ found)).

(** The entry [j] is an ancestor mark of the active entry [a]: it precedes
    [a], its level is strictly smaller than that of [a], no entry between
    them has its level (it is the nearest of that level), and no entry
    between them is a level-1 entry below the level of [a] (the loop marks
    that one and stops there). *)
Definition ancestorOf (items : list Item) (a j : nat) : Prop :=
  (j < a)%nat /\
  exists la lj,
    levelAt items a = Some la /\ levelAt items j = Some lj /\ lj < la /\
    (forall k lk, (j < k < a)%nat -> levelAt items k = Some lk -> lk <> lj) /\
    (forall k lk, (j < k < a)%nat -> levelAt items k = Some lk ->
       ~ (lk = 1 /\ 1 < la)).

(** The items after the two steps that precede the backward loop. *)
Definition clearedWithActive (items : list Item) (a : nat) : list Item :=
  alter addActive a (clearVisibility <$> items).

(** * Sample documents and views *)

Definition heading (level : Z) (text : string) (line : Z) : TocItem :=
  {| toc_level := level; toc_text := js text; toc_line := line; toc_id := [] |}.

(** The document of the scenario: Intro at line 0, Setup at 10, Usage at 30. *)
Definition sampleHeadings : list TocItem :=
  [heading 1 "Intro" 0; heading 2 "Setup" 10; heading 2 "Usage" 30].

Definition sampleItems : list Item := createItem <$> sampleHeadings.

Definition samplePlugin : Plugin :=
  {| containerEl := Some sampleItems; lastActiveIndex := 2;
     lastHeadings := sampleHeadings; blockScrollEvent := false |}.

(** The same document after an edit that renames one heading and adds one. *)
Definition editedHeadings : list TocItem :=
  [heading 1 "Intro" 0; heading 2 "Install" 10; heading 2 "Usage" 30;
   heading 2 "Notes" 44].

Definition sourceView (headings : list TocItem) : View :=
  {| getMode := source; getScroller := None; editor := None;
     domHeaders := []; getTocHeaders := headings;
     file := Some (js "note.md") |}.


(** Two one-entry outlines that differ in emphasis markers only. *)
Definition emphasised : list TocItem := [heading 1 "*Setup*" 4].
Definition unadorned : list TocItem := [heading 1 "Setup" 4].

Definition imageHeading : jsstring := js "![logo](a.png)".


(** The outline A(1), B(2), C(3), D(2). *)
Definition nestedOutline : list Item :=
  createItem <$> [heading 1 "A" 0; heading 2 "B" 3; heading 3 "C" 6; heading 2 "D" 9].

(** An outline of eight entries in which the entries 2 and 7 are both the
    level-2 heading "Notes", after entry 3 was the active one. *)
Definition duplicateOutline : list Item :=
  createItem <$>
    [heading 1 "Guide" 0; heading 2 "Install" 4; heading 2 "Notes" 9;
     heading 2 "Usage" 15; heading 3 "Flags" 21; heading 3 "Files" 30;
     heading 2 "Build" 41; heading 2 "Notes" 50].

Definition duplicatePlugin : Plugin :=
  {| containerEl := Some duplicateOutline; lastActiveIndex := 3;
     lastHeadings := []; blockScrollEvent := false |}.

Definition readingScroller : Scroller :=
  {| scrollTop := 640; clientHeight := 900; rect_top := 40; rect_left := 0 |}.

(** A preview scrolled down by 640 pixels, in which the heading elements
    "Build" and "Notes" are above the target line and a second "Notes"
    below it, so that the second "Notes" element is the selected one. *)
Definition duplicateView : View :=
  {| getMode := preview; getScroller := Some readingScroller; editor := None;
     domHeaders :=
       [ {| hdr_top := -300; hdr_innerText := js "Build";
            hdr_dataHeading := Some (js "Build"); hdr_level := 2 |};
         {| hdr_top := 12; hdr_innerText := js "Notes";
            hdr_dataHeading := Some (js "Notes"); hdr_level := 2 |};
         {| hdr_top := 350; hdr_innerText := js "Notes";
            hdr_dataHeading := Some (js "Notes"); hdr_level := 2 |} ];
     getTocHeaders := []; file := Some (js "note.md") |}.

(** An outline in which the level-2 heading "Notes" is at the indices 1
    and 5, both at distance 2 from the previously active entry 3. *)
Definition tiedOutline : list Item :=
  createItem <$>
    [heading 1 "Guide" 0; heading 2 "Notes" 4; heading 2 "Install" 9;
     heading 2 "Usage" 15; heading 3 "Flags" 21; heading 2 "Notes" 30].

Definition tiedPlugin : Plugin :=
  {| containerEl := Some tiedOutline; lastActiveIndex := 3;
     lastHeadings := []; blockScrollEvent := false |}.

(** An editor scrolled by 12 pixels, and one scrolled by 200 pixels. *)
Definition topEditor : Editor :=
  {| scrollInfo_top := 12; scrollInfo_height := Some 900%Q; cm := None |}.

Definition scrolledEditor : Editor :=
  {| scrollInfo_top := 200; scrollInfo_height := Some 900%Q; cm := None |}.

Definition topSourceView : View :=
  {| getMode := source; getScroller := None; editor := Some topEditor;
     domHeaders := []; getTocHeaders := sampleHeadings;
     file := Some (js "note.md") |}.

Definition scrolledSourceView : View :=
  {| getMode := source; getScroller := None; editor := Some scrolledEditor;
     domHeaders := []; getTocHeaders := sampleHeadings;
     file := Some (js "note.md") |}.

(** * The rest of the plugin *)

(** ** The listeners of [registerDomEvents] *)

(** [resetBlock], the listener of [mousedown], [wheel], [touchstart] and
    [keydown] on the scroller. *)
Definition resetBlock (p : Plugin) : Plugin :=
  {| containerEl := containerEl p; lastActiveIndex := lastActiveIndex p;
     lastHeadings := lastHeadings p; blockScrollEvent := false |}.

(** What the host can deliver to the plugin once it is loaded: the four
    workspace and vault events that run [updateToc] (directly or through
    the debouncer), a scroll of the scroller, a user input on the scroller,
    cursor activity in the content, and a click on the item [index] that
    was rendered for [view]. *)
Inductive Event : Type :=
| EvUpdateToc (activeView : option View)
| EvScroll (view : View)
| EvUserInput
| EvCursorActivity (view : View) (cursorLine : Z)
| EvClick (view : View) (index : Z).

Definition handle (p : Plugin) (e : Event) : Plugin :=
  match e with
  | EvUpdateToc activeView => updateToc p activeView
  | EvScroll view => onScroll p view
  | EvUserInput => resetBlock p
  | EvCursorActivity view cursorLine => handleCursorActivity p view cursorLine
  | EvClick view index => onItemClick p view index
  end.

(** The plugin after a sequence of events, from the state of [onload]. *)
Definition run (events : list Event) : Plugin :=
  fold_left handle events initialPlugin.

(** ** Vocabulary of the further properties *)

(** What [updateActiveItem] and the resolver never write: the two data
    attributes and the text of an item. *)
Definition itemData (it : Item) : Z * Z * jsstring :=
  (data_level it, data_line it, span_text it).

(** The data that [renderToc] gives to the item of a heading: its level,
    its line and its stripped text. *)
Definition headingData (h : TocItem) : Z * Z * jsstring :=
  (toc_level h, toc_line h, stripMarkdown (toc_text h)).

(** The data of the items of the panel, when there is a panel. *)
Definition panelData (p : Plugin) : option (list (Z * Z * jsstring)) :=
  fmap (M:=list) itemData <$> containerEl p.

(** The panel shows the cached headings, one item per heading and in the
    same order; without a panel the cache is empty. *)
Definition inSync (p : Plugin) : Prop :=
  match containerEl p with
  | Some items => itemData <$> items = headingData <$> lastHeadings p
  | None => lastHeadings p = []
  end.

(** No item carries a visibility class. *)
Definition allCleared (items : list Item) : Prop :=
  Forall (fun it => cls_active it = false /\ cls_parent_visible it = false) items.

(** [lastActiveIndex] is -1 or the index of an item of the panel. *)
Definition indexInRange (p : Plugin) (items : list Item) : Prop :=
  -1 <= lastActiveIndex p < Z.of_nat (length items).

(** The line that the source branch of [highlightActiveHeader] scans for:
    the specific line, or the estimate when no line was passed (or the line
    passed is -1) and the view has an editor. *)
Definition sourceLine (view : View) (specificLine : option Z) : Z :=
  let currentLine := match specificLine with Some l => l | None => -1 end in
  match editor view with
  | Some ed =>
      if currentLine =? -1 then
        match estimateLine (getScroller view) ed with
        | Some l => l
        | None => currentLine
        end
      else currentLine
  | None => currentLine
  end.

(** The index that the source branch hands to [updateActiveItem]. *)
Definition sourceIndex (view : View) (specificLine : option Z) (items : list Item) : Z :=
  sourceActiveIndex view
    (match specificLine with Some _ => true | None => false end)
    (sourceLine view specificLine) items.

(** The number of leading heading elements whose top is at or above the
    target line: the elements the loop of [findActiveDomHeader] passes
    before it stops. *)
Fixpoint aboveCount (targetTop : Q) (hs : list DomHeader) : nat :=
  match hs with
  | [] => O
  | h :: rest =>
      if Qle_bool (hdr_top h) targetTop then S (aboveCount targetTop rest) else O
  end.

(** What [updateTocPositions] leaves alone in an item. *)
Definition itemRest (it : Item) : Z * jsstring * bool * bool :=
  (data_level it, span_text it, cls_active it, cls_parent_visible it).

(** A preview in which the heading element "Usage" is above the target
    line and the element "Flags" below it, so that "Flags" is selected. *)
Definition flagsView : View :=
  {| getMode := preview; getScroller := Some readingScroller; editor := None;
     domHeaders :=
       [ {| hdr_top := -100; hdr_innerText := js "Usage";
            hdr_dataHeading := Some (js "Usage"); hdr_level := 2 |};
         {| hdr_top := 300; hdr_innerText := js "Flags";
            hdr_dataHeading := Some (js "Flags"); hdr_level := 3 |} ];
     getTocHeaders := []; file := Some (js "note.md") |}.

(** A character that starts none of the five patterns. *)
Definition markerFree (c : N) : Prop :=
  c <> ch "[" /\ c <> ch "*" /\ c <> ch "_" /\ c <> ch "`".

(** A character that [.] matches. *)
Definition notLineTerminator (c : N) : Prop :=
  inClass true lineTerminators c = true.

(** The heading text that is one link, [label] in brackets and [url] in
    parentheses. *)
Definition linkText (label url : jsstring) : jsstring :=
  ch "[" :: label ++ ch "]" :: ch "(" :: url ++ [ch ")"].

(** The two classes of an item. *)
Definition itemFlags (it : Item) : bool * bool :=
  (cls_active it, cls_parent_visible it).

(** The sample document as [updateToc] first shows it: no item is marked
    and [lastActiveIndex] is -1. *)
Definition freshPlugin : Plugin :=
  updateToc initialPlugin (Some (sourceView sampleHeadings)).

(** An editor scrolled by 200 pixels whose CodeMirror view reports line 12
    at the top of the visible area. *)
Definition readingEditor : Editor :=
  {| scrollInfo_top := 200; scrollInfo_height := Some 900%Q;
     cm := Some {| lineAtCoords := fun _ _ => Some 12;
                   lineAtHeight := fun _ => Some 12 |} |}.

Definition estimatingView : View :=
  {| getMode := source; getScroller := None; editor := Some readingEditor;
     domHeaders := []; getTocHeaders := sampleHeadings;
     file := Some (js "note.md") |}.




(** A document whose first heading is at line 3, with its second entry
    active and the first one marked as its ancestor. *)
Definition lateOutline : list Item :=
  createItem <$> [heading 1 "Intro" 3; heading 2 "Setup" 10; heading 2 "Usage" 30].

Definition markedPlugin : Plugin :=
  {| containerEl := Some (updateActiveItem lateOutline 1); lastActiveIndex := 1;
     lastHeadings := []; blockScrollEvent := false |}.




(** A view that has lost its file. *)
Definition closedView : View :=
  {| getMode := source; getScroller := None; editor := Some scrolledEditor;
     domHeaders := []; getTocHeaders := sampleHeadings; file := None |}.

(** ** The loops of the first version of [highlightActiveHeader]

    The first version of the class in the repository resolves the position
    without [lastActiveIndex] and without a cursor line.  Its three loops
    are kept here to be compared with the ones above. *)
Module Early.

(** The scan of the items in source mode: [activeIndex = i] for every item
    whose line is at or before [currentLine], up to the first later item. *)
Fixpoint scanItems (currentLine : Z) (i : Z) (items : list Item) (activeIndex : Z) : Z :=
  match items with
  | [] => activeIndex
  | item :: rest =>
      if data_line item <=? currentLine
      then scanItems currentLine (i + 1) rest i
      else activeIndex
  end.

Definition scanActiveIndex (currentLine : Z) (items : list Item) : Z :=
  scanItems currentLine 0 items (-1).

(** The loop over the heading elements in preview mode: the last element
    at or above the target line, up to the first element below it. *)
Fixpoint findActiveDomHeader (targetTop : Q) (hs : list DomHeader)
    (activeDomHeader : option DomHeader) : option DomHeader :=
  match hs with
  | [] => activeDomHeader
  | h :: rest =>
      if Qle_bool (hdr_top h) targetTop
      then findActiveDomHeader targetTop rest (Some h)
      else activeDomHeader
  end.

(** The matching loop: the index of the first item with the level and the
    text of the heading, where the loop breaks, or -1. *)
Fixpoint firstMatch (i : Z) (items : list Item) (level : Z) (headerText : jsstring) : Z :=
  match items with
  | [] => -1
  | item :: rest =>
      if (data_level item =? level) && jsstring_eqb (span_text item) headerText
      then i
      else firstMatch (i + 1) rest level headerText
  end.

Definition matchedIndex (items : list Item) (level : Z) (headerText : jsstring) : Z :=
  firstMatch 0 items level headerText.

End Early.

(** * Properties *)

(** ** Markup stripping: sample headings *)

Example strip_display :
  stripMarkdown (js "**[Intro](#x)** and *code* `y`") = js "Intro and code y".
Proof. vm_compute. reflexivity. Qed.

Example strip_empty_alt : stripMarkdown (js "![](a.png) x") = js " x".
Proof. vm_compute. reflexivity. Qed.

Example strip_emphasis : stripMarkdown (js "a_b_c __d__ **** *") = js "abc d  *".
Proof. vm_compute. reflexivity. Qed.

Example strip_leftmost : stripMarkdown (js "[a]b](c)(d) `` `x`y`") = js "[a]b](c)(d) ` xy".
Proof. vm_compute. reflexivity. Qed.

(** ** Full rebuild and the resolver state *)

Lemma renderToc_lastActiveIndex p view headers :
  lastActiveIndex (renderToc p view headers) = lastActiveIndex p.
Proof. unfold renderToc. by destruct (containerEl p). Qed.

Lemma renderToc_blockScrollEvent p view headers :
  blockScrollEvent (renderToc p view headers) = blockScrollEvent p.
Proof. unfold renderToc. by destruct (containerEl p). Qed.

(** The rebuild that [updateToc] makes when the structure of the document
    has changed keeps the resolver state as well. *)
Lemma updateToc_rebuild_keeps_state p view :
  areHeadersStructurallyEqual (lastHeadings p) (getTocHeaders view) = false ->
  lastActiveIndex (updateToc p (Some view)) = lastActiveIndex p /\
  blockScrollEvent (updateToc p (Some view)) = blockScrollEvent p.
Proof.
  intros Hdiff. unfold updateToc.
  destruct (containerEl p); simpl; rewrite Hdiff;
    by rewrite renderToc_lastActiveIndex, renderToc_blockScrollEvent.
Qed.



(** ** Structural equality *)

Lemma structureDiffers_false h1 h2 :
  structureDiffers h1 h2 = false <->
  toc_level h1 = toc_level h2 /\ toc_text h1 = toc_text h2.
Proof.
  unfold structureDiffers, jsstring_eqb.
  rewrite orb_false_iff, !negb_false_iff, Z.eqb_eq, bool_decide_eq_true.
  reflexivity.
Qed.

Lemma headersLoop_true n : forall i A B,
  headersLoop n i A B = true <->
  forall j, (i <= j < i + n)%nat ->
    exists a b, A !! j = Some a /\ B !! j = Some b /\ structureDiffers a b = false.
Proof.
  induction n as [|n IH]; intros i A B; simpl.
  - split; [intros _ j Hj; lia | done].
  - destruct (A !! i) as [a|] eqn:Ha; [destruct (B !! i) as [b|] eqn:Hb|].
    + destruct (structureDiffers a b) eqn:Hd.
      * split; [done|]. intros H.
        destruct (H i ltac:(lia)) as (a' & b' & Ha' & Hb' & Hd').
        congruence.
      * rewrite IH. split; intros H j Hj.
        -- destruct (decide (j = i)) as [->|Hne]; [eauto|].
           apply H. lia.
        -- apply H. lia.
    + split; [done|]. intros H.
      destruct (H i ltac:(lia)) as (a' & b' & Ha' & Hb' & Hd'). congruence.
    + split; [done|]. intros H.
      destruct (H i ltac:(lia)) as (a' & b' & Ha' & Hb' & Hd'). congruence.
Qed.

Lemma areHeadersStructurallyEqual_raw A B :
  areHeadersStructurallyEqual A B = true <-> structurallyEqual_raw A B.
Proof.
  unfold areHeadersStructurallyEqual, structurallyEqual_raw.
  destruct (length A =? length B)%nat eqn:Hlen; simpl.
  - apply Nat.eqb_eq in Hlen. rewrite headersLoop_true. split.
    + intros H. split; [done|]. intros i a b Ha Hb.
      destruct (H i) as (a' & b' & Ha' & Hb' & Hd).
      { apply lookup_lt_Some in Ha. lia. }
      apply structureDiffers_false. congruence.
    + intros [_ H] j Hj.
      destruct (lookup_lt_is_Some_2 A j ltac:(lia)) as [a Ha].
      destruct (lookup_lt_is_Some_2 B j ltac:(lia)) as [b Hb].
      exists a, b. repeat split; try done.
      apply structureDiffers_false. eauto.
  - apply Nat.eqb_neq in Hlen. split; [done|]. intros [H _]. done.
Qed.

(** C2, counterexample: the headings [*Setup*] and [Setup] have the same
    level and the same stripped label, so the two one-entry outlines are
    equal in the sense of the claim, and the check answers false. *)
Lemma C2_stripped_labels_counterexample :
  structurallyEqual_spec emphasised unadorned /\
  areHeadersStructurallyEqual emphasised unadorned = false /\
  ~ (areHeadersStructurallyEqual emphasised unadorned = true <->
     structurallyEqual_spec emphasised unadorned).
Proof.
  assert (Hspec : structurallyEqual_spec emphasised unadorned).
  { split; [done|]. intros [|i] a b Ha Hb; simplify_eq/=.
    split; [done|]. by vm_compute. }
  assert (Hcode : areHeadersStructurallyEqual emphasised unadorned = false)
    by (by vm_compute).
  split; [done|]. split; [done|].
  intros [_ Himp]. rewrite Hcode in Himp. by specialize (Himp Hspec).
Qed.

(** C2, as amended: the check returns true if and only if the two
    sequences have the same length and at every index the levels are equal
    and the heading texts, as written in the document, are equal (line and
    id ignored); when it returns true the stripped labels are equal too. *)
Theorem C2_structural_equality_on_raw_text :
  forall A B : list TocItem,
    (areHeadersStructurallyEqual A B = true <-> structurallyEqual_raw A B) /\
    (areHeadersStructurallyEqual A B = true -> structurallyEqual_spec A B).
Proof.
  intros A B. split; [apply areHeadersStructurallyEqual_raw|].
  intros [Hlen H] % areHeadersStructurallyEqual_raw. split; [done|].
  intros i a b Ha Hb. destruct (H i a b Ha Hb) as [Hl Ht].
  by rewrite Ht.
Qed.

(** ** The reading line of preview mode *)


(** ** Source mode: the scan of the items *)

Lemma scanItems_readPrefix specific target items : forall i0 acc,
  scanItems specific target i0 items acc =
  match readPrefix target items with
  | O => acc
  | S n => if specific then i0 + Z.of_nat n else i0 + Z.of_nat n + 1
  end.
Proof.
  induction items as [|item rest IH]; intros i0 acc; simpl; [done|].
  destruct (data_line item <=? target); [|done].
  rewrite IH. destruct (readPrefix target rest) as [|n], specific; lia.
Qed.

Lemma readPrefix_le target items : (readPrefix target items <= length items)%nat.
Proof.
  induction items as [|item rest IH]; simpl; [lia|].
  destruct (data_line item <=? target); simpl; lia.
Qed.

Lemma readPrefix_last target items : forall i,
  documentOrder items -> lastAtOrBefore items target i ->
  readPrefix target items = S i.
Proof.
  unfold documentOrder.
  induction items as [|item rest IH]; intros i Hord [(it & Hit & Hle) Hafter].
  - by rewrite lookup_nil in Hit.
  - simpl in Hord. apply StronglySorted_inv in Hord as [Hord Hhead].
    simpl. destruct i as [|i]; simpl in Hit.
    + simplify_eq. rewrite (proj2 (Z.leb_le _ _) Hle). f_equal.
      destruct rest as [|next rest']; simpl; [done|].
      specialize (Hafter 1%nat next eq_refl ltac:(lia)).
      by rewrite (proj2 (Z.leb_gt _ _) Hafter).
    + assert (data_line item <= target) as Hfirst.
      { etrans; [|exact Hle].
        rewrite Forall_forall in Hhead. apply Hhead.
        apply list_elem_of_fmap. exists it. split; [done|].
        by eapply list_elem_of_lookup_2. }
      rewrite (proj2 (Z.leb_le _ _) Hfirst). f_equal.
      apply IH; [done|]. split; [eauto|].
      intros j it' Hj Hlt. apply (Hafter (S j) it' Hj). lia.
Qed.

(** When the first item is already after the target line (or there is no
    item) the scan leaves [activeIndex] at -1 in both modes. *)
Lemma scanActiveIndex_none specific target items :
  match items with
  | [] => True
  | item :: _ => target < data_line item
  end ->
  scanActiveIndex specific target items = -1.
Proof.
  intros Hfirst. unfold scanActiveIndex.
  destruct items as [|item rest]; simpl; [done|].
  rewrite (proj2 (Z.leb_gt _ _) Hfirst).
  destruct (_ >=? _) eqn:Hge; [|done].
  apply Z.geb_le in Hge. lia.
Qed.

(** The items that [renderToc] creates are in document order when the
    headings are. *)
Lemma createItem_documentOrder (headers : list TocItem) :
  StronglySorted Z.le (toc_line <$> headers) ->
  documentOrder (createItem <$> headers).
Proof.
  unfold documentOrder. rewrite <- list_fmap_compose.
  by replace (data_line ∘ createItem) with toc_line by done.
Qed.

Lemma scanActiveIndex_last items target i :
  documentOrder items ->
  lastAtOrBefore items target i ->
  scanActiveIndex true target items = Z.of_nat i /\
  scanActiveIndex false target items
    = Z.min (Z.of_nat i + 1) (Z.of_nat (length items) - 1).
Proof.
  intros Hord Hlast.
  pose proof (readPrefix_last target items i Hord Hlast) as Hpre.
  pose proof (readPrefix_le target items) as Hlen.
  unfold scanActiveIndex. rewrite !scanItems_readPrefix, Hpre.
  split.
  - destruct (_ >=? _) eqn:Hge; [|lia].
    apply Z.geb_le in Hge. lia.
  - destruct (_ >=? _) eqn:Hge.
    + apply Z.geb_le in Hge. lia.
    + rewrite Z.geb_leb in Hge. apply Z.leb_gt in Hge. lia.
Qed.

(** ** Preview mode: duplicate headings *)

Lemma elem_of_matchingFrom items level headerText : forall i x,
  x ∈ matchingFrom i items level headerText <->
  exists j : nat, x = i + Z.of_nat j /\ matches items level headerText j.
Proof.
  unfold matches.
  induction items as [|item rest IH]; intros i x; simpl.
  - split; [by intros ?%elem_of_nil|]. intros (j & _ & it & Hj & _).
    by rewrite lookup_nil in Hj.
  - assert (Hrest : x ∈ matchingFrom (i + 1) rest level headerText <->
              exists j, x = i + Z.of_nat (S j) /\ matches rest level headerText j).
    { rewrite IH. unfold matches. split; intros (j & -> & H); exists j; (split; [lia|done]). }
    unfold matches in Hrest.
    destruct ((data_level item =? level) && jsstring_eqb (span_text item) headerText)
      eqn:Hm.
    + apply andb_true_iff in Hm as [Hl Ht].
      apply Z.eqb_eq in Hl. apply bool_decide_eq_true in Ht.
      rewrite elem_of_cons, Hrest. split.
      * intros [->|(j & -> & H)]; [exists 0%nat|exists (S j)]; (split; [lia|]); eauto.
      * intros ([|j] & -> & H); [left; lia|right; eauto].
    + rewrite Hrest. split.
      * intros (j & -> & H). exists (S j). eauto.
      * intros ([|j] & -> & it & Hit & Hl & Ht); [|by exists j; eauto].
        simplify_eq/=. apply andb_false_iff in Hm as [Hm|Hm].
        -- by apply Z.eqb_neq in Hm.
        -- by apply bool_decide_eq_false in Hm.
Qed.

Lemma elem_of_matchingIndices items level headerText x :
  x ∈ matchingIndices items level headerText <->
  exists j : nat, x = Z.of_nat j /\ matches items level headerText j.
Proof. unfold matchingIndices. by rewrite elem_of_matchingFrom. Qed.

Lemma matchingFrom_ascending items level headerText : forall i,
  StronglySorted Z.lt (matchingFrom i items level headerText).
Proof.
  induction items as [|item rest IH]; intros i; simpl; [constructor|].
  destruct (_ && _); [|apply IH].
  constructor; [apply IH|]. apply Forall_forall. intros x Hx.
  apply elem_of_matchingFrom in Hx as (j & -> & _). lia.
Qed.

(** The proximity loop, started after its first iteration: the result is
    the first element of the list at the least distance from [last]. *)
Lemma fold_closerStep last ms : forall d0 b0,
  d0 = Z.abs (b0 - last) ->
  exists b pre post,
    fold_left (closerStep last) ms (Some d0, b0) = (Some (Z.abs (b - last)), b) /\
    b0 :: ms = pre ++ b :: post /\
    (forall j, j ∈ b0 :: ms -> Z.abs (b - last) <= Z.abs (j - last)) /\
    (forall j, j ∈ pre -> Z.abs (b - last) < Z.abs (j - last)).
Proof.
  induction ms as [|x ms IH]; intros d0 b0 ->; simpl.
  - exists b0, [], [].
    split; [done|]. split; [done|]. split; [|by intros ? ?%elem_of_nil].
    intros j ->%list_elem_of_singleton. lia.
  - unfold closerStep at 2. simpl.
    destruct (Z.abs (x - last) <? Z.abs (b0 - last)) eqn:Hlt.
    + apply Z.ltb_lt in Hlt.
      destruct (IH _ x eq_refl) as (b & pre & post & Hf & Hsplit & Hmin & Hpre).
      assert (Z.abs (b - last) <= Z.abs (x - last)) by (apply Hmin; left).
      exists b, (b0 :: pre), post.
      split; [done|]. split; [by rewrite Hsplit|]. split.
      * intros j [->|Hj]%elem_of_cons; [lia|]. by apply Hmin.
      * intros j [->|Hj]%elem_of_cons; [lia|]. by apply Hpre.
    + apply Z.ltb_ge in Hlt.
      destruct (IH _ b0 eq_refl) as (b & pre & post & Hf & Hsplit & Hmin & Hpre).
      assert (Z.abs (b - last) <= Z.abs (b0 - last)) by (apply Hmin; left).
      destruct pre as [|b0' pre]; simplify_eq/=.
      * exists b, [], (x :: post).
        split; [done|]. split; [done|]. split; [|by intros ? ?%elem_of_nil].
        intros j [->|[->|Hj]%elem_of_cons]%elem_of_cons; [lia|lia|].
        apply Hmin. by right.
      * assert (Z.abs (b - last) < Z.abs (b0' - last)) by (apply Hpre; left).
        exists b, (b0' :: x :: pre), post.
        split; [done|]. split; [done|]. split.
        -- intros j [->|[->|Hj]%elem_of_cons]%elem_of_cons; [lia|lia|].
           apply Hmin. by right.
        -- intros j [->|[->|Hj]%elem_of_cons]%elem_of_cons; [lia|lia|].
           by apply Hpre; right.
Qed.

Lemma chooseMatch_first_closest last ms :
  ms <> [] ->
  exists b pre post,
    chooseMatch last ms = b /\ ms = pre ++ b :: post /\
    (forall j, j ∈ ms -> Z.abs (b - last) <= Z.abs (j - last)) /\
    (forall j, j ∈ pre -> Z.abs (b - last) < Z.abs (j - last)).
Proof.
  destruct ms as [|first [|second rest]]; [done| |]; intros _.
  - exists first, [], [].
    split; [done|]. split; [done|]. split; [|by intros ? ?%elem_of_nil].
    intros j ->%list_elem_of_singleton. lia.
  - unfold chooseMatch, closestMatch.
    destruct (fold_closerStep last (second :: rest) _ first eq_refl)
      as (b & pre & post & Hf & Hsplit & Hmin & Hpre).
    exists b, pre, post. split; [|done].
    change (fold_left (closerStep last) (first :: second :: rest) (None, first))
      with (fold_left (closerStep last) (second :: rest)
              (Some (Z.abs (first - last)), first)).
    by rewrite Hf.
Qed.

Lemma chooseMatch_matchingIndices items level headerText last :
  matchingIndices items level headerText <> [] ->
  exists m : nat,
    chooseMatch last (matchingIndices items level headerText) = Z.of_nat m /\
    matches items level headerText m /\
    (forall j, matches items level headerText j ->
       Z.abs (Z.of_nat m - last) <= Z.abs (Z.of_nat j - last)) /\
    (forall j, matches items level headerText j ->
       Z.abs (Z.of_nat j - last) = Z.abs (Z.of_nat m - last) -> (m <= j)%nat).
Proof.
  intros Hne.
  destruct (chooseMatch_first_closest last _ Hne)
    as (b & pre & post & Hb & Hsplit & Hmin & Hpre).
  assert (Hin : b ∈ matchingIndices items level headerText).
  { rewrite Hsplit. apply elem_of_app. right. left. }
  apply elem_of_matchingIndices in Hin as (m & -> & Hm).
  exists m. repeat split; [done|done| |].
  - intros j Hj. apply Hmin, elem_of_matchingIndices. eauto.
  - intros j Hj Hd.
    assert (Hjin : Z.of_nat j ∈ matchingIndices items level headerText)
      by (apply elem_of_matchingIndices; eauto).
    rewrite Hsplit in Hjin.
    apply elem_of_app in Hjin as [Hjin|Hjin].
    { apply Hpre in Hjin. lia. }
    apply elem_of_cons in Hjin as [Hjin|Hjin]; [lia|].
    pose proof (matchingFrom_ascending items level headerText 0) as Hsorted.
    fold (matchingIndices items level headerText) in Hsorted.
    rewrite Hsplit in Hsorted.
    apply StronglySorted_app_1_r in Hsorted.
    apply StronglySorted_inv in Hsorted as [_ Hall].
    rewrite Forall_forall in Hall. specialize (Hall _ Hjin). lia.
Qed.

(** ** The ancestor chain of [updateActiveItem] *)

Lemma levelAt_alter_parent items i k :
  levelAt (alter addParentVisible i items) k = levelAt items k.
Proof.
  unfold levelAt. destruct (decide (k = i)) as [->|Hne].
  - rewrite list_lookup_alter_eq. by destruct (items !! i).
  - by rewrite list_lookup_alter_ne.
Qed.

Lemma markedFrom_skip L i found items iti :
  items !! i = Some iti ->
  ~ (data_level iti < L /\ data_level iti ∉ found) ->
  forall j, markedFrom L (S i) found items j <-> markedFrom L i found items j.
Proof.
  intros Hi Hno j. unfold markedFrom. split.
  - intros (Hj & lj & Hlj & Hlt & Hnf & Hbetween).
    assert (j <> i).
    { intros ->. unfold levelAt in Hlj. rewrite Hi in Hlj. simplify_eq/=. tauto. }
    split; [lia|]. exists lj. repeat split; try done.
    all: intros; eapply (Hbetween k lk); eauto; lia.
  - intros (Hj & lj & Hlj & Hlt & Hnf & Hbetween).
    split; [lia|]. exists lj. split; [done|]. split; [done|]. split; [done|].
    intros k lk Hk Hlk. destruct (decide (k = i)) as [->|Hne].
    + unfold levelAt in Hlk. rewrite Hi in Hlk. simplify_eq/=.
      split; [intros Heq; rewrite Heq in Hno; tauto|].
      intros (H1 & HL & H1f). rewrite H1 in Hno. tauto.
    + apply (Hbetween k lk); [lia|done].
Qed.

Lemma markedFrom_add L i found items iti :
  items !! i = Some iti ->
  data_level iti < L -> data_level iti ∉ found -> data_level iti <> 1 ->
  forall j, j <> i ->
    markedFrom L (S i) found items j <->
    markedFrom L i ({[data_level iti]} ∪ found) (alter addParentVisible i items) j.
Proof.
  intros Hi HL Hnf H1 j Hne. unfold markedFrom.
  assert (Hin : forall x : Z,
            x ∈ ({[data_level iti]} ∪ found : gset Z) <->
            x = data_level iti \/ x ∈ found).
  { intros x. by rewrite elem_of_union, elem_of_singleton. }
  assert (Hone : (1 ∉ ({[data_level iti]} ∪ found : gset Z)) <-> (1 ∉ found)).
  { rewrite Hin. split; [tauto|]. intros ? [?|?]; [congruence|done]. }
  split.
  - intros (Hj & lj & Hlj & Hlt & Hnfj & Hbetween).
    split; [lia|]. exists lj. rewrite levelAt_alter_parent.
    split; [done|]. split; [done|].
    assert (lj <> data_level iti).
    { intros ->. destruct (Hbetween i (data_level iti)) as [Hd _]; [lia| |done].
      unfold levelAt. by rewrite Hi. }
    split; [rewrite Hin; tauto|].
    intros k lk Hk. rewrite levelAt_alter_parent. intros Hlk.
    destruct (Hbetween k lk ltac:(lia) Hlk) as [Hd Hs].
    split; [done|]. rewrite Hone. done.
  - intros (Hj & lj & Hlj & Hlt & Hnfj & Hbetween).
    rewrite levelAt_alter_parent in Hlj.
    split; [lia|]. exists lj.
    rewrite Hin in Hnfj.
    split; [done|]. split; [done|]. split; [tauto|].
    intros k lk Hk Hlk. destruct (decide (k = i)) as [->|Hki].
    + unfold levelAt in Hlk. rewrite Hi in Hlk. simplify_eq/=.
      split; [intros Heq; apply Hnfj; by left|tauto].
    + destruct (Hbetween k lk ltac:(lia)) as [Hd Hs].
      { by rewrite levelAt_alter_parent. }
      split; [done|]. by rewrite <- Hone.
Qed.

Lemma markedFrom_stop L i found items iti :
  items !! i = Some iti ->
  data_level iti = 1 -> 1 < L -> 1 ∉ found ->
  forall j, markedFrom L (S i) found items j <-> j = i.
Proof.
  intros Hi H1 HL Hnf j. unfold markedFrom. split.
  - intros (Hj & lj & Hlj & Hlt & Hnfj & Hbetween).
    destruct (decide (j = i)) as [|Hne]; [done|].
    destruct (Hbetween i 1) as [_ Hs]; [lia| |tauto].
    unfold levelAt. by rewrite Hi, <- H1.
  - intros ->. split; [lia|]. exists 1. unfold levelAt. rewrite Hi. simpl.
    split; [by rewrite H1|]. split; [done|]. split; [done|]. intros; lia.
Qed.

Lemma markParents_lookup L n : forall found items,
  (n <= length items)%nat ->
  forall j it, items !! j = Some it ->
    (markedFrom L n found items j /\
     markParents L n found items !! j = Some (addParentVisible it)) \/
    (~ markedFrom L n found items j /\
     markParents L n found items !! j = Some it).
Proof.
  induction n as [|i IH]; intros found items Hlen j it Hj; simpl.
  - right. split; [|done]. intros [? _]. lia.
  - destruct (lookup_lt_is_Some_2 items i ltac:(lia)) as [iti Hi].
    rewrite Hi. simpl.
    destruct ((data_level iti <? L) && negb (bool_decide (data_level iti ∈ found)))
      eqn:Hc.
    + apply andb_true_iff in Hc as [HL Hnf].
      apply Z.ltb_lt in HL. apply negb_true_iff, bool_decide_eq_false in Hnf.
      destruct (data_level iti =? 1) eqn:H1.
      * apply Z.eqb_eq in H1.
        pose proof (markedFrom_stop L i found items iti Hi H1 ltac:(lia)
                      ltac:(by rewrite <- H1) j) as Hstop.
        destruct (decide (j = i)) as [->|Hne].
        -- left. split; [by apply Hstop|].
           rewrite list_lookup_alter_eq, Hi. by simplify_eq.
        -- right. split; [by rewrite Hstop|].
           by rewrite list_lookup_alter_ne.
      * apply Z.eqb_neq in H1.
        assert (Hlen' : (i <= length (alter addParentVisible i items))%nat)
          by (rewrite length_alter; lia).
        destruct (decide (j = i)) as [->|Hne].
        -- simplify_eq.
           destruct (IH ({[data_level it]} ∪ found) _ Hlen' i (addParentVisible it))
             as [[[Hlt _] _]|[_ Hres]]; [|lia|].
           { by rewrite list_lookup_alter_eq, Hj. }
           left. split; [|done].
           split; [lia|]. exists (data_level it). unfold levelAt. rewrite Hj.
           split; [done|]. split; [done|]. split; [done|]. intros; lia.
        -- destruct (IH ({[data_level iti]} ∪ found) _ Hlen' j it)
             as [[Hm Hres]|[Hm Hres]].
           { by rewrite list_lookup_alter_ne. }
           ++ left. split; [|done].
              by apply (proj2 (markedFrom_add L i found items iti Hi HL Hnf H1 j Hne)).
           ++ right. split; [|done]. intros Hm'. apply Hm.
              by apply (proj1 (markedFrom_add L i found items iti Hi HL Hnf H1 j Hne)).
    + assert (Hno : ~ (data_level iti < L /\ data_level iti ∉ found)).
      { intros [HL Hnf]. apply andb_false_iff in Hc as [Hc|Hc].
        - apply Z.ltb_ge in Hc. lia.
        - apply negb_false_iff, bool_decide_eq_true in Hc. done. }
      destruct (IH found items ltac:(lia) j it Hj) as [[Hm Hres]|[Hm Hres]].
      * left. split; [|done].
        by apply (proj2 (markedFrom_skip L i found items iti Hi Hno j)).
      * right. split; [|done]. intros Hm'. apply Hm.
        by apply (proj1 (markedFrom_skip L i found items iti Hi Hno j)).
Qed.

Lemma levelAt_clearedWithActive items a k :
  levelAt (clearedWithActive items a) k = levelAt items k.
Proof.
  unfold levelAt, clearedWithActive. destruct (decide (k = a)) as [->|Hne].
  - rewrite list_lookup_alter_eq, list_lookup_fmap. by destruct (items !! a).
  - rewrite list_lookup_alter_ne by done. rewrite list_lookup_fmap.
    by destruct (items !! k).
Qed.

Lemma markedFrom_ancestorOf items a la :
  levelAt items a = Some la ->
  forall j, markedFrom la a ∅ (clearedWithActive items a) j <-> ancestorOf items a j.
Proof.
  intros Ha j. unfold markedFrom, ancestorOf. split.
  - intros (Hj & lj & Hlj & Hlt & _ & Hbetween).
    rewrite levelAt_clearedWithActive in Hlj.
    split; [done|]. exists la, lj. split; [done|]. split; [done|]. split; [done|].
    split; intros k lk Hk Hlk;
      (destruct (Hbetween k lk Hk) as [Hd Hs];
       [by rewrite levelAt_clearedWithActive|]); [done|].
    intros [H1 H2]. apply Hs. split; [done|]. split; [done|].
    apply not_elem_of_empty.
  - intros (Hj & la' & lj & Ha' & Hlj & Hlt & Hnear & Hstop).
    simplify_eq. split; [done|]. exists lj.
    rewrite levelAt_clearedWithActive.
    split; [done|]. split; [done|]. split; [apply not_elem_of_empty|].
    intros k lk Hk. rewrite levelAt_clearedWithActive. intros Hlk.
    split; [by eapply Hnear|]. intros (H1 & H2 & _).
    by eapply Hstop.
Qed.

Lemma updateActiveItem_valid items (a : nat) activeItem :
  items !! a = Some activeItem ->
  updateActiveItem items (Z.of_nat a)
  = markParents (data_level activeItem) a ∅ (clearedWithActive items a).
Proof.
  intros Ha. unfold updateActiveItem, clearedWithActive.
  pose proof (lookup_lt_Some _ _ _ Ha) as Hlt.
  rewrite length_fmap.
  replace ((0 <=? Z.of_nat a) && (Z.of_nat a <? Z.of_nat (length items)))
    with true by (symmetry; apply andb_true_iff; split; lia).
  rewrite Nat2Z.id, list_lookup_fmap, Ha. reflexivity.
Qed.

Lemma updateActiveItem_invalid items activeIndex :
  ~ (0 <= activeIndex < Z.of_nat (length items)) ->
  updateActiveItem items activeIndex = clearVisibility <$> items.
Proof.
  intros Hout. unfold updateActiveItem. rewrite length_fmap.
  destruct ((0 <=? activeIndex) && (activeIndex <? Z.of_nat (length items)))
    eqn:Hin; [|done].
  apply andb_true_iff in Hin as [H0 H1]. lia.
Qed.

Lemma updateActiveItem_lookup items (a : nat) :
  (a < length items)%nat ->
  forall j item, items !! j = Some item ->
    exists item',
      updateActiveItem items (Z.of_nat a) !! j = Some item' /\
      data_level item' = data_level item /\
      data_line item' = data_line item /\
      span_text item' = span_text item /\
      (cls_active item' = true <-> j = a) /\
      (cls_parent_visible item' = true <-> ancestorOf items a j).
Proof.
  intros Hlt j item Hj.
  destruct (lookup_lt_is_Some_2 items a Hlt) as [activeItem Ha].
  rewrite (updateActiveItem_valid items a activeItem Ha).
  assert (Hla : levelAt items a = Some (data_level activeItem))
    by (unfold levelAt; by rewrite Ha).
  pose proof (markedFrom_ancestorOf items a _ Hla j) as Hanc.
  assert (Hlen : (a <= length (clearedWithActive items a))%nat).
  { unfold clearedWithActive. rewrite length_alter, length_fmap. lia. }
  destruct (decide (j = a)) as [->|Hne].
  - simplify_eq.
    assert (Hstart : clearedWithActive items a !! a
                     = Some (addActive (clearVisibility item))).
    { unfold clearedWithActive.
      by rewrite list_lookup_alter_eq, list_lookup_fmap, Hj. }
    destruct (markParents_lookup (data_level item) a ∅ _ Hlen a _ Hstart)
      as [[[Hlt' _] _]|[Hm Hres]]; [lia|].
    eexists. split; [exact Hres|]. simpl. rewrite <- Hanc.
    split; [done|]. split; [done|]. split; [done|]. split; [done|].
    split; [done|]. intros ?; exfalso; tauto.
  - assert (Hstart : clearedWithActive items a !! j = Some (clearVisibility item)).
    { unfold clearedWithActive.
      rewrite list_lookup_alter_ne by done. by rewrite list_lookup_fmap, Hj. }
    destruct (markParents_lookup (data_level activeItem) a ∅ _ Hlen j _ Hstart)
      as [[Hm Hres]|[Hm Hres]];
      (eexists; split; [exact Hres|]); simpl; rewrite <- Hanc.
    + split; [done|]. split; [done|]. split; [done|].
      split; [split; [done|by intros ?]|done].
    + split; [done|]. split; [done|]. split; [done|].
      split; [split; [done|by intros ?]|].
      split; [done|]. intros ?; exfalso; tauto.
Qed.

(** C7: for every outline and every valid active index [a], after
    [updateActiveItem] the entry [j] carries [parent-visible] exactly when it
    is the nearest preceding entry of a level strictly smaller than that of
    [a] and no level-1 entry that the loop marks lies between them, and it
    carries [active] exactly when [j = a].  For the outline A(1), B(2),
    C(3), D(2): active index 2 marks A and B and not D; active index 3
    marks A alone. *)
Theorem C7_ancestor_chain :
  (forall (items : list Item) (a : nat),
     (a < length items)%nat ->
     forall (j : nat) (item : Item), items !! j = Some item ->
       exists item',
         updateActiveItem items (Z.of_nat a) !! j = Some item' /\
         (cls_active item' = true <-> j = a) /\
         (cls_parent_visible item' = true <-> ancestorOf items a j)) /\
  cls_parent_visible <$> updateActiveItem nestedOutline 2
    = [true; true; false; false] /\
  cls_parent_visible <$> updateActiveItem nestedOutline 3
    = [true; false; false; false].
Proof.
  split; [|by vm_compute].
  intros items a Hlt j item Hj.
  destruct (updateActiveItem_lookup items a Hlt j item Hj)
    as (item' & Hres & _ & _ & _ & Hact & Hpar).
  eauto.
Qed.

Lemma C7_ancestor_chain_witness :
  exists item',
    updateActiveItem nestedOutline (Z.of_nat 2) !! 1%nat = Some item' /\
    (cls_active item' = true <-> 1%nat = 2%nat) /\
    (cls_parent_visible item' = true <-> ancestorOf nestedOutline 2 1).
Proof.
  apply (proj1 C7_ancestor_chain nestedOutline 2%nat ltac:(simpl; lia) 1%nat
           (createItem (heading 2 "B" 3)) eq_refl).
Defined.

(** ** The resolver in preview mode *)

Lemma Qlt_bool_true a b : Qlt_bool a b = true <-> (a < b)%Q.
Proof.
  unfold Qlt_bool. rewrite negb_true_iff, <- not_true_iff_false, Qle_bool_iff.
  split; [apply Qnot_le_lt|apply Qlt_not_le].
Qed.

Lemma Qlt_bool_false a b : Qlt_bool a b = false <-> (b <= a)%Q.
Proof. unfold Qlt_bool. by rewrite negb_false_iff, Qle_bool_iff. Qed.

Lemma highlight_preview p view specificLine items s :
  containerEl p = Some items ->
  getMode view = preview ->
  getScroller view = Some s ->
  highlightActiveHeader p view specificLine =
  if Qlt_bool (scrollTop s) 50 && negb (length items =? 0)%nat
  then setActiveIndex p items 0
  else previewMatch p view s items.
Proof. intros Hc Hm Hs. unfold highlightActiveHeader. by rewrite Hc, Hm, Hs. Qed.

Lemma previewMatch_candidate p view s items level headerText :
  previewCandidate view s = Some (level, headerText) ->
  previewMatch p view s items =
  let matchedIndex :=
    chooseMatch (lastActiveIndex p) (matchingIndices items level headerText) in
  if matchedIndex >=? 0 then setActiveIndex p items matchedIndex else p.
Proof.
  unfold previewCandidate, previewMatch.
  destruct (findActiveDomHeader _ _ _) as [h|]; [|done].
  destruct (headerTextOf h) as [|c t]; [done|].
  by intros [= <- <-].
Qed.

Lemma matchingIndices_nil items level headerText :
  matchingIndices items level headerText = [] <->
  forall j, ~ matches items level headerText j.
Proof.
  split.
  - intros Hnil j Hj.
    assert (Z.of_nat j ∈ matchingIndices items level headerText) as Hin
      by (apply elem_of_matchingIndices; eauto).
    rewrite Hnil in Hin. by apply elem_of_nil in Hin.
  - intros Hno. destruct (matchingIndices items level headerText) as [|x ms] eqn:Hms;
      [done|].
    assert (x ∈ matchingIndices items level headerText) as Hin
      by (rewrite Hms; left).
    apply elem_of_matchingIndices in Hin as (j & _ & Hj). by destruct (Hno j).
Qed.

(** With at least one matching item the preview resolver stores the index
    that [chooseMatch] returns. *)
Lemma highlight_preview_matched p view specificLine items s level headerText :
  containerEl p = Some items ->
  getMode view = preview ->
  getScroller view = Some s ->
  awayFromTop s ->
  previewCandidate view s = Some (level, headerText) ->
  matchingIndices items level headerText <> [] ->
  highlightActiveHeader p view specificLine =
  setActiveIndex p items
    (chooseMatch (lastActiveIndex p) (matchingIndices items level headerText)).
Proof.
  intros Hc Hm Hs Haway Hcand Hne.
  rewrite (highlight_preview p view specificLine items s Hc Hm Hs).
  rewrite (proj2 (Qlt_bool_false _ _) Haway). simpl.
  rewrite (previewMatch_candidate p view s items level headerText Hcand). simpl.
  destruct (chooseMatch_matchingIndices items level headerText (lastActiveIndex p) Hne)
    as (m & Hm' & _).
  rewrite Hm'.
  replace (Z.of_nat m >=? 0) with true; [done|].
  symmetry. rewrite Z.geb_leb. apply Z.leb_le. lia.
Qed.

(** C6: in preview mode, away from the top of the document, when several
    items have the level and the text of the selected heading, the index
    stored in [lastActiveIndex] is that of a matching item whose distance
    to the previous [lastActiveIndex] is minimal among the matching items.
    With matching items at 2 and 7 and [lastActiveIndex = 3] the index 2 is
    selected. *)
Theorem C6_closest_duplicate_selected :
  (forall (p : Plugin) (view : View) (specificLine : option Z)
          (items : list Item) (s : Scroller) (level : Z) (headerText : jsstring)
          (j1 j2 : nat),
     containerEl p = Some items ->
     getMode view = preview ->
     getScroller view = Some s ->
     awayFromTop s ->
     previewCandidate view s = Some (level, headerText) ->
     matches items level headerText j1 ->
     matches items level headerText j2 ->
     j1 <> j2 ->
     exists m : nat,
       lastActiveIndex (highlightActiveHeader p view specificLine) = Z.of_nat m /\
       matches items level headerText m /\
       forall j, matches items level headerText j ->
         Z.abs (Z.of_nat m - lastActiveIndex p)
         <= Z.abs (Z.of_nat j - lastActiveIndex p)) /\
  matchingIndices duplicateOutline 2 (js "Notes") = [2; 7] /\
  lastActiveIndex (highlightActiveHeader duplicatePlugin duplicateView None) = 2.
Proof.
  split; [|by vm_compute].
  intros p view specificLine items s level headerText j1 j2
         Hc Hm Hs Haway Hcand Hj1 _ _.
  assert (Hne : matchingIndices items level headerText <> []).
  { intros Hnil. by apply (proj1 (matchingIndices_nil _ _ _) Hnil j1). }
  rewrite (highlight_preview_matched p view specificLine items s level headerText)
    by done.
  destruct (chooseMatch_matchingIndices items level headerText (lastActiveIndex p) Hne)
    as (m & Hm' & Hmatch & Hmin & _).
  exists m. simpl. eauto.
Qed.

Lemma duplicateOutline_matches_2 : matches duplicateOutline 2 (js "Notes") 2.
Proof. eexists. split; [reflexivity|]. split; reflexivity. Defined.

Lemma duplicateOutline_matches_7 : matches duplicateOutline 2 (js "Notes") 7.
Proof. eexists. split; [reflexivity|]. split; reflexivity. Defined.

Lemma C6_closest_duplicate_witness :
  exists m : nat,
    lastActiveIndex (highlightActiveHeader duplicatePlugin duplicateView None)
      = Z.of_nat m /\
    matches duplicateOutline 2 (js "Notes") m /\
    forall j, matches duplicateOutline 2 (js "Notes") j ->
      Z.abs (Z.of_nat m - 3) <= Z.abs (Z.of_nat j - 3).
Proof.
  apply (proj1 C6_closest_duplicate_selected duplicatePlugin duplicateView None
           duplicateOutline readingScroller 2 (js "Notes") 2%nat 7%nat).
  - reflexivity.
  - reflexivity.
  - reflexivity.
  - unfold awayFromTop. simpl. by vm_compute.
  - by vm_compute.
  - exact duplicateOutline_matches_2.
  - exact duplicateOutline_matches_7.
  - lia.
Defined.

(** The item at a valid index carries the active class after
    [updateActiveItem]. *)
Lemma updateActiveItem_active_at (items : list Item) (a : nat) :
  (a < length items)%nat ->
  exists item, updateActiveItem items (Z.of_nat a) !! a = Some item /\
               cls_active item = true.
Proof.
  intros Hlt.
  destruct (lookup_lt_is_Some_2 items a Hlt) as [item Hitem].
  destruct (updateActiveItem_lookup items a Hlt a item Hitem)
    as (item' & Hres & _ & _ & _ & Hact & _).
  exists item'. split; [done|]. by apply Hact.
Qed.

Lemma matches_lt items level headerText j :
  matches items level headerText j -> (j < length items)%nat.
Proof. intros (item & Hj & _). by eapply lookup_lt_Some. Qed.

(** C10: in preview mode, away from the top of the document, when two or
    more items have the level and the text of the selected heading, the
    resolver stores the index of a matching item, marks that item as the
    active one, and this index is the smallest among the matching items at
    the least distance from the previous [lastActiveIndex]: no matching
    item is closer, and every matching item that is as close has an index
    that is not smaller.  With matching items at 1 and 5, both at distance
    2 from [lastActiveIndex = 3], the index 1 is selected. *)
Theorem C10_tie_selects_smallest_index :
  (forall (p : Plugin) (view : View) (specificLine : option Z)
          (items : list Item) (s : Scroller) (level : Z) (headerText : jsstring)
          (j1 j2 : nat),
     containerEl p = Some items ->
     getMode view = preview ->
     getScroller view = Some s ->
     awayFromTop s ->
     previewCandidate view s = Some (level, headerText) ->
     matches items level headerText j1 ->
     matches items level headerText j2 ->
     j1 <> j2 ->
     exists m : nat,
       lastActiveIndex (highlightActiveHeader p view specificLine) = Z.of_nat m /\
       containerEl (highlightActiveHeader p view specificLine)
         = Some (updateActiveItem items (Z.of_nat m)) /\
       (exists item, updateActiveItem items (Z.of_nat m) !! m = Some item /\
                     cls_active item = true) /\
       matches items level headerText m /\
       (forall j, matches items level headerText j ->
          Z.abs (Z.of_nat m - lastActiveIndex p)
          <= Z.abs (Z.of_nat j - lastActiveIndex p)) /\
       (forall j, matches items level headerText j ->
          Z.abs (Z.of_nat j - lastActiveIndex p)
          = Z.abs (Z.of_nat m - lastActiveIndex p) ->
          (m <= j)%nat)) /\
  matchingIndices tiedOutline 2 (js "Notes") = [1; 5] /\
  lastActiveIndex (highlightActiveHeader tiedPlugin duplicateView None) = 1.
Proof.
  split; [|by vm_compute].
  intros p view specificLine items s level headerText j1 j2
         Hc Hm Hs Haway Hcand Hj1 _ _.
  assert (Hne : matchingIndices items level headerText <> []).
  { intros Hnil. by apply (proj1 (matchingIndices_nil _ _ _) Hnil j1). }
  rewrite (highlight_preview_matched p view specificLine items s level headerText)
    by done.
  destruct (chooseMatch_matchingIndices items level headerText (lastActiveIndex p) Hne)
    as (m & Hm' & Hmatch & Hmin & Htie).
  exists m. rewrite Hm'. simpl.
  split; [done|]. split; [done|].
  split; [by apply updateActiveItem_active_at, (matches_lt _ level headerText)|].
  eauto.
Qed.

Lemma tiedOutline_matches_1 : matches tiedOutline 2 (js "Notes") 1.
Proof. eexists. split; [reflexivity|]. split; reflexivity. Defined.

Lemma tiedOutline_matches_5 : matches tiedOutline 2 (js "Notes") 5.
Proof. eexists. split; [reflexivity|]. split; reflexivity. Defined.

Lemma C10_tie_witness :
  exists m : nat,
    lastActiveIndex (highlightActiveHeader tiedPlugin duplicateView None)
      = Z.of_nat m /\
    containerEl (highlightActiveHeader tiedPlugin duplicateView None)
      = Some (updateActiveItem tiedOutline (Z.of_nat m)) /\
    (exists item, updateActiveItem tiedOutline (Z.of_nat m) !! m = Some item /\
                  cls_active item = true) /\
    matches tiedOutline 2 (js "Notes") m /\
    (forall j, matches tiedOutline 2 (js "Notes") j ->
       Z.abs (Z.of_nat m - 3) <= Z.abs (Z.of_nat j - 3)) /\
    (forall j, matches tiedOutline 2 (js "Notes") j ->
       Z.abs (Z.of_nat j - 3) = Z.abs (Z.of_nat m - 3) -> (m <= j)%nat).
Proof.
  apply (proj1 C10_tie_selects_smallest_index tiedPlugin duplicateView None
           tiedOutline readingScroller 2 (js "Notes") 1%nat 5%nat).
  - reflexivity.
  - reflexivity.
  - reflexivity.
  - unfold awayFromTop. simpl. by vm_compute.
  - by vm_compute.
  - exact tiedOutline_matches_1.
  - exact tiedOutline_matches_5.
  - lia.
Defined.

(** ** The top of the document *)

Lemma updateActiveItem_first_active items :
  items <> [] ->
  exists first, updateActiveItem items 0 !! 0%nat = Some first /\
                cls_active first = true.
Proof.
  intros Hne. destruct items as [|item rest]; [done|].
  destruct (updateActiveItem_lookup (item :: rest) 0 ltac:(simpl; lia) 0 item eq_refl)
    as (first & Hres & _ & _ & _ & Hact & _).
  exists first. split; [done|]. by apply Hact.
Qed.

(** C8: in both modes, when the scroll offset of the viewport is below 50
    and the outline has an item, the resolver stores 0 in [lastActiveIndex]
    and marks the items as [updateActiveItem] does for index 0, so that the
    first item is the active one, whatever the heading positions, the
    estimated line or the cursor line are. *)
Theorem C8_top_of_document_selects_first :
  forall (p : Plugin) (view : View) (specificLine : option Z)
         (items : list Item) (top : Q),
    containerEl p = Some items ->
    items <> [] ->
    viewportScrollTop view = Some top ->
    (top < 50)%Q ->
    lastActiveIndex (highlightActiveHeader p view specificLine) = 0 /\
    containerEl (highlightActiveHeader p view specificLine)
      = Some (updateActiveItem items 0) /\
    exists first, updateActiveItem items 0 !! 0%nat = Some first /\
                  cls_active first = true.
Proof.
  intros p view specificLine items top Hc Hne Htop Hlt.
  apply Qlt_bool_true in Hlt.
  split; [|split; [|by apply updateActiveItem_first_active]];
    unfold viewportScrollTop in Htop; unfold highlightActiveHeader; rewrite Hc;
    destruct (getMode view).
  - unfold sourceActiveIndex.
    destruct (editor view) as [ed|]; [|done]. simplify_eq/=.
    by rewrite Hlt.
  - destruct (getScroller view) as [s|]; [|done]. simplify_eq/=.
    rewrite Hlt. by destruct items.
  - unfold sourceActiveIndex.
    destruct (editor view) as [ed|]; [|done]. simplify_eq/=.
    by rewrite Hlt.
  - destruct (getScroller view) as [s|]; [|done]. simplify_eq/=.
    rewrite Hlt. by destruct items.
Qed.

Lemma C8_top_of_document_witness :
  lastActiveIndex (highlightActiveHeader samplePlugin topSourceView (Some 31)) = 0 /\
  containerEl (highlightActiveHeader samplePlugin topSourceView (Some 31))
    = Some (updateActiveItem sampleItems 0) /\
  exists first, updateActiveItem sampleItems 0 !! 0%nat = Some first /\
                cls_active first = true.
Proof.
  apply (C8_top_of_document_selects_first samplePlugin topSourceView (Some 31)
           sampleItems 12).
  - reflexivity.
  - discriminate.
  - reflexivity.
  - by vm_compute.
Defined.

(** ** No match in preview mode *)

(** C9: in preview mode, away from the top of the document, when no item
    has the level and the text of the selected heading, the resolver
    returns the plugin as it was: [lastActiveIndex] and the classes of
    every item are unchanged. *)
Theorem C9_no_match_no_update :
  forall (p : Plugin) (view : View) (specificLine : option Z)
         (items : list Item) (s : Scroller) (level : Z) (headerText : jsstring),
    containerEl p = Some items ->
    getMode view = preview ->
    getScroller view = Some s ->
    awayFromTop s ->
    previewCandidate view s = Some (level, headerText) ->
    (forall j, ~ matches items level headerText j) ->
    highlightActiveHeader p view specificLine = p.
Proof.
  intros p view specificLine items s level headerText Hc Hm Hs Haway Hcand Hno.
  rewrite (highlight_preview p view specificLine items s Hc Hm Hs).
  rewrite (proj2 (Qlt_bool_false _ _) Haway). simpl.
  rewrite (previewMatch_candidate p view s items level headerText Hcand).
  by rewrite (proj2 (matchingIndices_nil items level headerText) Hno).
Qed.

Lemma sampleItems_no_Notes : forall j, ~ matches sampleItems 2 (js "Notes") j.
Proof. by apply matchingIndices_nil. Defined.

Lemma C9_no_match_witness :
  highlightActiveHeader samplePlugin duplicateView None = samplePlugin.
Proof.
  apply (C9_no_match_no_update samplePlugin duplicateView None
           sampleItems readingScroller 2 (js "Notes")).
  - reflexivity.
  - reflexivity.
  - reflexivity.
  - unfold awayFromTop. simpl. by vm_compute.
  - by vm_compute.
  - exact sampleItems_no_Notes.
Defined.

(** ** The reading line of preview mode, through the resolver *)







(** ** Markup stripping of images *)

Section RegexFacts.

Local Arguments ch : simpl never.
Local Arguments inClass : simpl never.
Local Arguments N.eqb : simpl never.
Local Arguments setCapture : simpl never.
Local Arguments Nat.sub : simpl never.

Lemma starGreedy_run {R : Type} (p : N -> bool) (run tail : jsstring)
    (k : jsstring -> option R) (r : R) :
  Forall (fun c => p c = true) run ->
  match tail with [] => True | c :: _ => p c = false end ->
  k tail = Some r ->
  starGreedy p (run ++ tail) k = Some r.
Proof.
  intros Hrun Htail Hk. induction Hrun as [|x run Hx _ IH]; simpl.
  - destruct tail as [|c t]; simpl; [done|]. by rewrite Htail.
  - by rewrite Hx, IH.
Qed.

Lemma inClass_not (c x : N) : x <> c -> inClass true [c] x = true.
Proof.
  intros Hne. unfold inClass. simpl.
  by rewrite (proj2 (N.eqb_neq x c) Hne).
Qed.

Lemma inClass_not_same (c : N) : inClass true [c] c = false.
Proof. unfold inClass. simpl. by rewrite N.eqb_refl. Qed.

Lemma Forall_inClass_not (c : N) (s : jsstring) :
  Forall (fun x => x <> c) s -> Forall (fun x => inClass true [c] x = true) s.
Proof.
  intros Hs. eapply Forall_impl; [exact Hs|].
  intros x Hx. by apply inClass_not.
Qed.

Lemma replaceFrom_skip_all r grp s :
  exec r [] = None -> replaceFrom r grp (length s) s = [].
Proof.
  intros He. induction s as [|c s IH]; simpl; [by rewrite He|done].
Qed.

Lemma replaceFrom_cons_match r grp c s caps :
  exec r (c :: s) = Some (caps, []) ->
  exec r [] = None ->
  replaceFrom r grp 0 (c :: s) = caps grp.
Proof.
  intros Hm He. cbn [replaceFrom]. rewrite Hm.
  change (length (c :: s) - length (@nil N))%nat with (S (length s)).
  cbv beta iota. rewrite replaceFrom_skip_all by done.
  by rewrite app_nil_r.
Qed.

Lemma replaceFrom_cons_none r grp c s :
  exec r (c :: s) = None ->
  replaceFrom r grp 0 (c :: s) = c :: replaceFrom r grp 0 s.
Proof. intros He. simpl. by rewrite He. Qed.

Lemma replaceFrom_no_match r grp s :
  exec r [] = None ->
  Forall (fun c => forall t, exec r (c :: t) = None) s ->
  replaceFrom r grp 0 s = s.
Proof.
  intros He Hs. induction Hs as [|c s Hc _ IH]; simpl; [by rewrite He|].
  by rewrite Hc, IH.
Qed.

(** The link pattern matches a bracketed label followed by a parenthesised
    target, and its group 1 is the label. *)
Lemma exec_link alt url rest :
  alt <> [] -> Forall (fun c => c <> ch "]") alt ->
  url <> [] -> Forall (fun c => c <> ch ")") url ->
  exists caps,
    exec linkRe (ch "[" :: alt ++ ch "]" :: ch "(" :: url ++ ch ")" :: rest)
      = Some (caps, rest) /\
    caps 1%nat = alt.
Proof.
  intros Halt Hnb Hurl Hnp.
  destruct alt as [|a alt]; [done|]. destruct url as [|u url]; [done|].
  apply Forall_cons in Hnb as [Ha Hnb]. apply Forall_cons in Hnp as [Hu Hnp].
  eexists. unfold exec, linkRe, seqs, plus. cbn.
  rewrite N.eqb_refl, (inClass_not _ _ Ha).
  split.
  - erewrite starGreedy_run; [reflexivity| | |].
    + by apply Forall_inClass_not.
    + apply inClass_not_same.
    + cbn. rewrite !N.eqb_refl, (inClass_not _ _ Hu).
      erewrite starGreedy_run; [reflexivity| | |].
      * by apply Forall_inClass_not.
      * apply inClass_not_same.
      * cbn. by rewrite N.eqb_refl.
  - unfold setCapture. simpl Nat.eqb. cbv iota.
    match goal with |- take ?n _ = _ =>
      replace n with (length (a :: alt))
        by (simpl; rewrite !length_app; simpl; rewrite !length_app; simpl; lia)
    end.
    apply (take_app_length (a :: alt)).
Qed.

(** The image pattern matches the whole image, and its group 1 is the
    alternative text. *)
Lemma exec_image alt url rest :
  Forall (fun c => c <> ch "]") alt ->
  url <> [] -> Forall (fun c => c <> ch ")") url ->
  exists caps,
    exec imageRe
      (ch "!" :: ch "[" :: alt ++ ch "]" :: ch "(" :: url ++ ch ")" :: rest)
      = Some (caps, rest) /\
    caps 1%nat = alt.
Proof.
  intros Hnb Hurl Hnp.
  destruct url as [|u url]; [done|].
  apply Forall_cons in Hnp as [Hu Hnp].
  eexists. unfold exec, imageRe, seqs, plus. cbn.
  rewrite !N.eqb_refl.
  split.
  - erewrite starGreedy_run; [reflexivity| | |].
    + by apply Forall_inClass_not.
    + apply inClass_not_same.
    + cbn. rewrite !N.eqb_refl, (inClass_not _ _ Hu).
      erewrite starGreedy_run; [reflexivity| | |].
      * by apply Forall_inClass_not.
      * apply inClass_not_same.
      * cbn. by rewrite N.eqb_refl.
  - unfold setCapture. simpl Nat.eqb. cbv iota.
    match goal with |- take ?n _ = _ =>
      replace n with (length alt)
        by (simpl; rewrite !length_app; simpl; rewrite !length_app; simpl; lia)
    end.
    apply take_app_length.
Qed.

Lemma exec_link_none c t : c <> ch "[" -> exec linkRe (c :: t) = None.
Proof.
  intros H1. unfold exec, linkRe, seqs. cbn.
  by rewrite (proj2 (N.eqb_neq _ _) H1).
Qed.

Lemma exec_bold_none c t :
  c <> ch "*" -> c <> ch "_" -> exec boldRe (c :: t) = None.
Proof.
  intros H1 H2. unfold exec, boldRe, seqs. cbn.
  by rewrite (proj2 (N.eqb_neq _ _) H1), (proj2 (N.eqb_neq _ _) H2).
Qed.

Lemma exec_italic_none c t :
  c <> ch "*" -> c <> ch "_" -> exec italicRe (c :: t) = None.
Proof.
  intros H1 H2. unfold exec, italicRe, seqs. cbn.
  by rewrite (proj2 (N.eqb_neq _ _) H1), (proj2 (N.eqb_neq _ _) H2).
Qed.

Lemma exec_code_none c t : c <> ch "`" -> exec codeRe (c :: t) = None.
Proof.
  intros H1. unfold exec, codeRe, seqs. cbn.
  by rewrite (proj2 (N.eqb_neq _ _) H1).
Qed.

Lemma exec_image_none c t : c <> ch "!" -> exec imageRe (c :: t) = None.
Proof.
  intros H1. unfold exec, imageRe, seqs. cbn.
  by rewrite (proj2 (N.eqb_neq _ _) H1).
Qed.

Lemma exec_image_bang_none c t :
  c <> ch "[" -> exec imageRe (ch "!" :: c :: t) = None.
Proof.
  intros H1. unfold exec, imageRe, seqs. cbn.
  by rewrite N.eqb_refl, (proj2 (N.eqb_neq _ _) H1).
Qed.

End RegexFacts.

(** The first replacement of [stripMarkdown] turns an image into an
    exclamation mark followed by the alternative text. *)
Lemma replace_link_image alt url :
  alt <> [] -> Forall (fun c => c <> ch "]") alt ->
  url <> [] -> Forall (fun c => c <> ch ")") url ->
  replaceAll linkRe 1 (imageText alt url) = ch "!" :: alt.
Proof.
  intros Halt Hnb Hurl Hnp.
  destruct (exec_link alt url [] Halt Hnb Hurl Hnp) as (caps & Hexec & Hcap).
  unfold replaceAll, imageText.
  rewrite replaceFrom_cons_none by (by vm_compute).
  rewrite (replaceFrom_cons_match _ _ _ _ caps Hexec) by (by vm_compute).
  by rewrite Hcap.
Qed.

Lemma replace_image_image alt url :
  Forall (fun c => c <> ch "]") alt ->
  url <> [] -> Forall (fun c => c <> ch ")") url ->
  replaceAll imageRe 1 (imageText alt url) = alt.
Proof.
  intros Hnb Hurl Hnp.
  destruct (exec_image alt url [] Hnb Hurl Hnp) as (caps & Hexec & Hcap).
  unfold replaceAll, imageText.
  rewrite (replaceFrom_cons_match _ _ _ _ caps Hexec) by (by vm_compute).
  by rewrite Hcap.
Qed.

Lemma plain_untouched alt :
  Forall plainChar alt ->
  replaceAll linkRe 1 alt = alt /\
  replaceAll boldRe 2 alt = alt /\
  replaceAll italicRe 2 alt = alt /\
  replaceAll codeRe 1 alt = alt /\
  replaceAll imageRe 1 alt = alt.
Proof.
  intros Hplain. unfold replaceAll.
  repeat split; (apply replaceFrom_no_match; [by vm_compute|]);
    (eapply Forall_impl; [exact Hplain|]); intros c Hc t.
  - apply exec_link_none, Hc.
  - apply exec_bold_none; apply Hc.
  - apply exec_italic_none; apply Hc.
  - apply exec_code_none, Hc.
  - apply exec_image_none, Hc.
Qed.

Lemma stripMarkdown_plain_image alt url :
  alt <> [] -> Forall plainChar alt ->
  url <> [] -> Forall (fun c => c <> ch ")") url ->
  stripMarkdown (imageText alt url) = ch "!" :: alt.
Proof.
  intros Halt Hplain Hurl Hnp. unfold stripMarkdown.
  rewrite replace_link_image; [|done| |done|done].
  2:{ eapply Forall_impl; [exact Hplain|]. intros c Hc. apply Hc. }
  destruct (plain_untouched alt Hplain) as (_ & Hb & Hi & Hc & Him).
  unfold replaceAll in *.
  rewrite (replaceFrom_cons_none boldRe) by (by vm_compute). rewrite Hb.
  rewrite (replaceFrom_cons_none italicRe) by (by vm_compute). rewrite Hi.
  rewrite (replaceFrom_cons_none codeRe) by (by vm_compute). rewrite Hc.
  destruct alt as [|a alt]; [done|].
  rewrite (replaceFrom_cons_none imageRe).
  - by rewrite Him.
  - apply exec_image_bang_none. apply Forall_cons in Hplain as [Ha _]. apply Ha.
Qed.

Lemma stripMarkdown_images_first_plain_image alt url :
  Forall plainChar alt ->
  url <> [] -> Forall (fun c => c <> ch ")") url ->
  stripMarkdown_images_first (imageText alt url) = alt.
Proof.
  intros Hplain Hurl Hnp. unfold stripMarkdown_images_first.
  rewrite replace_image_image; [|  |done|done].
  2:{ eapply Forall_impl; [exact Hplain|]. intros c Hc. apply Hc. }
  destruct (plain_untouched alt Hplain) as (Hl & Hb & Hi & Hc & _).
  by rewrite Hl, Hb, Hi, Hc.
Qed.

(** C3: for every image whose alternative text is not empty and made of
    plain characters, [stripMarkdown] returns the alternative text with the
    exclamation mark in front of it, not the alternative text: the link
    replacement runs first and consumes the bracketed part, and the image
    replacement that runs last finds nothing.  With the images replaced
    first, as the comment in the function asks, the result is the
    alternative text.  At [![logo](a.png)] the results are [!logo] and
    [logo]. *)
Theorem C3_image_alt_keeps_exclamation_mark :
  (forall alt url : jsstring,
     alt <> [] -> Forall plainChar alt ->
     url <> [] -> Forall (fun c => c <> ch ")") url ->
     stripMarkdown (imageText alt url) = ch "!" :: alt /\
     stripMarkdown (imageText alt url) <> alt /\
     stripMarkdown_images_first (imageText alt url) = alt) /\
  stripMarkdown imageHeading = js "!logo" /\
  stripMarkdown imageHeading <> js "logo" /\
  stripMarkdown_images_first imageHeading = js "logo".
Proof.
  split; [|vm_compute; repeat split; congruence].
  intros alt url Halt Hplain Hurl Hnp.
  rewrite stripMarkdown_plain_image by done.
  split; [done|]. split.
  - intros Heq. apply (f_equal length) in Heq. simpl in Heq. lia.
  - by apply stripMarkdown_images_first_plain_image.
Qed.

Lemma plain_logo : Forall plainChar (js "logo").
Proof. repeat constructor; by vm_compute. Defined.

Lemma no_paren_target : Forall (fun c => c <> ch ")") (js "a.png").
Proof. repeat constructor; by vm_compute. Defined.

Lemma C3_image_alt_witness :
  stripMarkdown (imageText (js "logo") (js "a.png")) = ch "!" :: js "logo" /\
  stripMarkdown (imageText (js "logo") (js "a.png")) <> js "logo" /\
  stripMarkdown_images_first (imageText (js "logo") (js "a.png")) = js "logo".
Proof.
  apply (proj1 C3_image_alt_keeps_exclamation_mark (js "logo") (js "a.png")).
  - discriminate.
  - exact plain_logo.
  - discriminate.
  - exact no_paren_target.
Defined.

(** ** The resolver in source mode *)

Lemma highlight_source p view specificLine items :
  containerEl p = Some items ->
  getMode view = source ->
  highlightActiveHeader p view specificLine =
  {| containerEl := Some (updateActiveItem items (sourceIndex view specificLine items));
     lastActiveIndex :=
       if sourceIndex view specificLine items >=? 0
       then sourceIndex view specificLine items
       else lastActiveIndex p;
     lastHeadings := lastHeadings p;
     blockScrollEvent := blockScrollEvent p |}.
Proof.
  intros Hc Hm. unfold highlightActiveHeader. rewrite Hc, Hm.
  unfold sourceIndex, sourceLine. by destruct (editor view), specificLine.
Qed.


(** Away from the top of the document the index of the source branch is
    the result of the scan. *)
Lemma sourceIndex_away view specificLine items :
  (forall ed, editor view = Some ed -> (50 <= scrollInfo_top ed)%Q) ->
  sourceIndex view specificLine items
  = scanActiveIndex (match specificLine with Some _ => true | None => false end)
      (sourceLine view specificLine) items.
Proof.
  intros Haway. unfold sourceIndex, sourceActiveIndex.
  destruct (editor view) as [ed|] eqn:Hed; [|done].
  by rewrite (proj2 (Qlt_bool_false _ _) (Haway ed eq_refl)).
Qed.

Lemma sourceLine_cursor view (l : Z) : l <> -1 -> sourceLine view (Some l) = l.
Proof.
  intros Hl. unfold sourceLine.
  rewrite (proj2 (Z.eqb_neq l (-1)) Hl). by destruct (editor view).
Qed.







(** With a cursor line the source-mode resolver, away from the top of the
    document, stores the index of the last item at or before that line. *)
Lemma highlight_source_cursor p view items ed (l : Z) (i : nat) :
  containerEl p = Some items ->
  getMode view = source ->
  editor view = Some ed ->
  (50 <= scrollInfo_top ed)%Q ->
  l <> -1 ->
  documentOrder items ->
  lastAtOrBefore items l i ->
  highlightActiveHeader p view (Some l) =
  {| containerEl := Some (updateActiveItem items (Z.of_nat i));
     lastActiveIndex := Z.of_nat i;
     lastHeadings := lastHeadings p;
     blockScrollEvent := blockScrollEvent p |}.
Proof.
  intros Hc Hm He Htop Hl Hord Hlast.
  unfold highlightActiveHeader, sourceActiveIndex. rewrite Hc, Hm, He.
  rewrite (proj2 (Z.eqb_neq l (-1)) Hl).
  rewrite (proj2 (Qlt_bool_false _ _) Htop).
  destruct (scanActiveIndex_last items l i Hord Hlast) as [-> _].
  replace (Z.of_nat i >=? 0) with true; [done|].
  symmetry. rewrite Z.geb_leb. apply Z.leb_le. lia.
Qed.

(** The scenario of the sample document: with the cursor at line 12 the
    entry 1 ("Setup") becomes the active one; a click on "Usage" makes
    entry 2 the active one at once, marks "Intro" as its ancestor and sets
    the scroll guard. *)
Example scenario_cursor_at_line_12 :
  let p := handleCursorActivity samplePlugin scrolledSourceView 12 in
  lastActiveIndex p = 1 /\
  (fmap (M:=list) cls_active <$> containerEl p) = Some [false; true; false] /\
  (fmap (M:=list) cls_parent_visible <$> containerEl p) = Some [true; false; false].
Proof. by vm_compute. Qed.

Example scenario_click_usage :
  let p := onItemClick samplePlugin scrolledSourceView 2 in
  lastActiveIndex p = 2 /\ blockScrollEvent p = true /\
  (fmap (M:=list) cls_active <$> containerEl p) = Some [false; false; true] /\
  (fmap (M:=list) cls_parent_visible <$> containerEl p) = Some [true; false; false].
Proof. by vm_compute. Qed.

(** A click on an entry of a view that has no file is ignored. *)
Example scenario_click_without_file :
  onItemClick samplePlugin closedView 2 = samplePlugin.
Proof. reflexivity. Qed.

(** Near the top of the document the cursor line is overridden. *)
Example scenario_cursor_near_top :
  lastActiveIndex (handleCursorActivity samplePlugin topSourceView 12) = 0.
Proof. by vm_compute. Qed.

(** * Further properties *)

(** ** [updateActiveItem]: what it keeps and what it marks *)

Lemma itemData_clearVisibility it : itemData (clearVisibility it) = itemData it.
Proof. done. Qed.

Lemma itemData_alter (f : Item -> Item) (i : nat) (items : list Item) :
  (forall it, itemData (f it) = itemData it) ->
  itemData <$> alter f i items = itemData <$> items.
Proof.
  intros Hf. apply list_eq. intros j. rewrite !list_lookup_fmap.
  destruct (decide (i = j)) as [->|Hne].
  - rewrite list_lookup_alter_eq. destruct (items !! j); simpl; [|done].
    by rewrite Hf.
  - by rewrite list_lookup_alter_ne.
Qed.

Lemma itemData_markParents L n : forall found (items : list Item),
  itemData <$> markParents L n found items = itemData <$> items.
Proof.
  induction n as [|i IH]; intros found items; simpl; [done|].
  destruct (items !! i) as [it|]; [|done].
  destruct ((data_level it <? L) && negb (bool_decide (data_level it ∈ found))).
  - destruct (data_level it =? 1).
    + by apply itemData_alter.
    + rewrite IH. by apply itemData_alter.
  - apply IH.
Qed.

Lemma itemData_updateActiveItem (items : list Item) activeIndex :
  itemData <$> updateActiveItem items activeIndex = itemData <$> items.
Proof.
  assert (Hclear : itemData <$> (clearVisibility <$> items) = itemData <$> items).
  { rewrite <- list_fmap_compose. by apply list_fmap_ext. }
  unfold updateActiveItem.
  destruct ((0 <=? activeIndex) && _); [|done].
  destruct ((clearVisibility <$> items) !! Z.to_nat activeIndex); [|done].
  rewrite itemData_markParents, itemData_alter; done.
Qed.

Lemma length_updateActiveItem (items : list Item) activeIndex :
  length (updateActiveItem items activeIndex) = length items.
Proof.
  pose proof (itemData_updateActiveItem items activeIndex) as Hdata.
  apply (f_equal length) in Hdata. by rewrite !length_fmap in Hdata.
Qed.

(** X1: [updateActiveItem] changes classes only: for every index, valid or
    not, the result has as many items as the argument, and every item
    keeps its level, its line and its text. *)
Theorem X1_updateActiveItem_keeps_item_data :
  forall (items : list Item) (activeIndex : Z),
    length (updateActiveItem items activeIndex) = length items /\
    itemData <$> updateActiveItem items activeIndex = itemData <$> items.
Proof.
  intros items activeIndex. split.
  - apply length_updateActiveItem.
  - apply itemData_updateActiveItem.
Qed.

Lemma allCleared_clearVisibility (items : list Item) : allCleared (clearVisibility <$> items).
Proof. unfold allCleared. apply Forall_fmap, Forall_true. by intros it. Qed.

(** X2: an index outside the items, -1 included, leaves no item active and
    no item marked as an ancestor, whatever the classes were before. *)
Theorem X2_updateActiveItem_out_of_range_clears :
  forall (items : list Item) (activeIndex : Z),
    ~ (0 <= activeIndex < Z.of_nat (length items)) ->
    allCleared (updateActiveItem items activeIndex).
Proof.
  intros items activeIndex Hout.
  rewrite updateActiveItem_invalid by done.
  apply allCleared_clearVisibility.
Qed.

Lemma X2_out_of_range_witness : allCleared (updateActiveItem sampleItems (-1)).
Proof.
  apply (X2_updateActiveItem_out_of_range_clears sampleItems (-1)).
  simpl. lia.
Defined.

Lemma clearVisibility_of_itemData (items items' : list Item) :
  itemData <$> items' = itemData <$> items ->
  clearVisibility <$> items' = clearVisibility <$> items.
Proof.
  intros Hdata. apply list_eq. intros j.
  apply (f_equal (fun l => l !! j)) in Hdata.
  rewrite !list_lookup_fmap in Hdata. rewrite !list_lookup_fmap.
  destruct (items' !! j) as [a|], (items !! j) as [b|]; simplify_eq/=; [|done].
  unfold clearVisibility. by rewrite Hdata, H, H0.
Qed.

Lemma updateActiveItem_of_itemData (items items' : list Item) activeIndex :
  itemData <$> items' = itemData <$> items ->
  updateActiveItem items' activeIndex = updateActiveItem items activeIndex.
Proof.
  intros Hdata. unfold updateActiveItem.
  by rewrite (clearVisibility_of_itemData items items' Hdata).
Qed.

(** Two items with the same level and the same two classes. *)
Lemma markParents_levels activeLevel n : forall found (l l' : list Item),
  Forall2 (fun x y => data_level x = data_level y /\ itemFlags x = itemFlags y) l l' ->
  Forall2 (fun x y => data_level x = data_level y /\ itemFlags x = itemFlags y)
    (markParents activeLevel n found l) (markParents activeLevel n found l').
Proof.
  induction n as [|i IH]; intros found l l' Hsim; simpl; [done|].
  destruct (l !! i) as [it|] eqn:Hl.
  - destruct (Forall2_lookup_l _ _ _ _ _ Hsim Hl) as (it' & -> & Hlevel & _).
    rewrite <- Hlevel.
    assert (Hmark : Forall2 (fun x y => data_level x = data_level y
                                        /\ itemFlags x = itemFlags y)
                      (alter addParentVisible i l) (alter addParentVisible i l')).
    { apply Forall2_alter; [done|].
      intros x y _ _ [Hxy Hflags]. split; [done|].
      unfold itemFlags in *. simpl. congruence. }
    destruct ((data_level it <? activeLevel)
              && negb (bool_decide (data_level it ∈ found))); [|by apply IH].
    destruct (data_level it =? 1); [done|]. by apply IH.
  - assert (l' !! i = None) as ->; [|done].
    apply lookup_ge_None. apply lookup_ge_None in Hl.
    by rewrite <- (Forall2_length _ _ _ Hsim).
Qed.

Lemma updateActiveItem_of_levels (items items' : list Item) activeIndex :
  data_level <$> items' = data_level <$> items ->
  itemFlags <$> updateActiveItem items' activeIndex
  = itemFlags <$> updateActiveItem items activeIndex.
Proof.
  intros Hlevels.
  assert (Hsim : Forall2 (fun x y => data_level x = data_level y
                                     /\ itemFlags x = itemFlags y)
                   (clearVisibility <$> items') (clearVisibility <$> items)).
  { apply Forall2_fmap_2.
    apply list_eq_Forall2, Forall2_fmap_1 in Hlevels.
    eapply Forall2_impl; [exact Hlevels|]. by intros x y Hxy. }
  assert (Hres : Forall2 (fun x y => data_level x = data_level y
                                     /\ itemFlags x = itemFlags y)
                   (updateActiveItem items' activeIndex)
                   (updateActiveItem items activeIndex)).
  { unfold updateActiveItem.
    rewrite <- (Forall2_length _ _ _ Hsim).
    destruct ((0 <=? activeIndex)
              && (activeIndex <? Z.of_nat (length (clearVisibility <$> items'))));
      [|done].
    destruct ((clearVisibility <$> items') !! Z.to_nat activeIndex) as [a'|] eqn:Ha'.
    - destruct (Forall2_lookup_l _ _ _ _ _ Hsim Ha') as (a & -> & Hlevel & _).
      rewrite Hlevel. apply markParents_levels.
      apply Forall2_alter; [done|].
      intros x y _ _ [Hxy Hflags]. split; [done|].
      unfold itemFlags in *. simpl. congruence.
    - assert ((clearVisibility <$> items) !! Z.to_nat activeIndex = None) as ->;
        [|done].
      apply lookup_ge_None. apply lookup_ge_None in Ha'.
      by rewrite <- (Forall2_length _ _ _ Hsim). }
  apply list_eq_Forall2, Forall2_fmap_2.
  eapply Forall2_impl; [exact Hres|]. by intros x y [_ Hflags].
Qed.

(** X3: the marks that [updateActiveItem] leaves depend on the index and
    on the levels of the items alone: two panels whose items have the same
    levels get the same classes at every position, whatever the classes,
    the lines and the texts were.  So the marks that were there are
    forgotten: marking for [b] and then for [a] gives what marking for [a]
    gives, and marking twice for [a] is marking once. *)
Theorem X3_updateActiveItem_forgets_earlier_marks :
  forall (items items' : list Item) (a b : Z),
    (data_level <$> items' = data_level <$> items ->
     itemFlags <$> updateActiveItem items' a
     = itemFlags <$> updateActiveItem items a) /\
    updateActiveItem (updateActiveItem items b) a = updateActiveItem items a /\
    updateActiveItem (updateActiveItem items a) a = updateActiveItem items a.
Proof.
  intros items items' a b.
  split; [apply updateActiveItem_of_levels|].
  split; apply updateActiveItem_of_itemData, itemData_updateActiveItem.
Qed.

Lemma X3_forgets_earlier_marks_witness :
  itemFlags <$> updateActiveItem (updateActiveItem lateOutline 1) 2
  = itemFlags <$> updateActiveItem sampleItems 2.
Proof.
  apply (proj1 (X3_updateActiveItem_forgets_earlier_marks
                  sampleItems (updateActiveItem lateOutline 1) 2 0)).
  reflexivity.
Defined.

Lemma updateActiveItem_cases (items : list Item) (activeIndex : Z) :
  (exists a : nat, activeIndex = Z.of_nat a /\ (a < length items)%nat) \/
  (~ (0 <= activeIndex < Z.of_nat (length items)) /\
   updateActiveItem items activeIndex = clearVisibility <$> items).
Proof.
  destruct (decide (0 <= activeIndex < Z.of_nat (length items))) as [Hin|Hout].
  - left. exists (Z.to_nat activeIndex). lia.
  - right. split; [done|]. by apply updateActiveItem_invalid.
Qed.

Lemma updateActiveItem_active_iff (items : list Item) activeIndex j item' :
  updateActiveItem items activeIndex !! j = Some item' ->
  cls_active item' = true <-> Z.of_nat j = activeIndex.
Proof.
  intros Hj.
  assert (Hlt : (j < length items)%nat).
  { apply lookup_lt_Some in Hj. by rewrite length_updateActiveItem in Hj. }
  destruct (updateActiveItem_cases items activeIndex) as [(a & -> & Ha)|[Hout Hclear]].
  - destruct (lookup_lt_is_Some_2 items j Hlt) as [item Hitem].
    destruct (updateActiveItem_lookup items a Ha j item Hitem)
      as (item'' & Hres & _ & _ & _ & Hact & _).
    rewrite Hj in Hres. simplify_eq. rewrite Hact. lia.
  - rewrite Hclear, list_lookup_fmap in Hj.
    destruct (items !! j) as [item|]; simplify_eq/=.
    split; [done|lia].
Qed.

(** X4: after [updateActiveItem] the item at the given index is the active
    one and no other item is: with an index outside the items there is no
    active item, with an index inside there is exactly one. *)
Theorem X4_updateActiveItem_single_active :
  forall (items : list Item) (activeIndex : Z) (j : nat) (item' : Item),
    updateActiveItem items activeIndex !! j = Some item' ->
    (cls_active item' = true <-> Z.of_nat j = activeIndex).
Proof. intros items activeIndex j item'. apply updateActiveItem_active_iff. Qed.

Lemma X4_single_active_witness :
  true = true <-> Z.of_nat 1 = 1.
Proof.
  apply (X4_updateActiveItem_single_active sampleItems 1 1%nat
           {| data_level := 2; data_line := 10; span_text := js "Setup";
              cls_active := true; cls_parent_visible := false |}).
  reflexivity.
Defined.

Lemma updateActiveItem_parent_ancestor (items : list Item) activeIndex j item' :
  updateActiveItem items activeIndex !! j = Some item' ->
  cls_parent_visible item' = true ->
  exists a : nat, activeIndex = Z.of_nat a /\ ancestorOf items a j /\
                  levelAt items j = Some (data_level item').
Proof.
  intros Hj Hpv.
  assert (Hlt : (j < length items)%nat).
  { apply lookup_lt_Some in Hj. by rewrite length_updateActiveItem in Hj. }
  destruct (updateActiveItem_cases items activeIndex) as [(a & -> & Ha)|[Hout Hclear]].
  - destruct (lookup_lt_is_Some_2 items j Hlt) as [item Hitem].
    destruct (updateActiveItem_lookup items a Ha j item Hitem)
      as (item'' & Hres & Hlevel & _ & _ & _ & Hanc).
    rewrite Hj in Hres. simplify_eq.
    exists a. split; [done|]. split; [by apply Hanc|].
    unfold levelAt. by rewrite Hitem, Hlevel.
  - rewrite Hclear, list_lookup_fmap in Hj.
    destruct (items !! j) as [item|]; simplify_eq/=.
Qed.

(** X5: every item that [updateActiveItem] marks as an ancestor precedes
    the active item and has a strictly smaller level, and two marked items
    never have the same level: at most one ancestor is shown per level. *)
Theorem X5_ancestors_precede_and_have_distinct_levels :
  forall (items : list Item) (activeIndex : Z) (j k : nat) (ij ik : Item),
    updateActiveItem items activeIndex !! j = Some ij ->
    updateActiveItem items activeIndex !! k = Some ik ->
    cls_parent_visible ij = true ->
    cls_parent_visible ik = true ->
    Z.of_nat j < activeIndex /\
    (exists active, items !! Z.to_nat activeIndex = Some active /\
                    data_level ij < data_level active) /\
    (data_level ij = data_level ik -> j = k).
Proof.
  intros items activeIndex j k ij ik Hj Hk Hpj Hpk.
  destruct (updateActiveItem_parent_ancestor items activeIndex j ij Hj Hpj)
    as (a & -> & (Hja & la & lj & Hla & Hlj & Hlt & Hnear & _) & Hlevj).
  destruct (updateActiveItem_parent_ancestor items (Z.of_nat a) k ik Hk Hpk)
    as (a' & Ha' & (Hka & la' & lk & Hla' & Hlk & Hlt' & Hnear' & _) & Hlevk).
  apply Nat2Z.inj in Ha'. subst a'.
  rewrite Hlevj in Hlj. rewrite Hlevk in Hlk. simplify_eq.
  split; [lia|]. split.
  - rewrite Nat2Z.id. unfold levelAt in Hla.
    destruct (items !! a) as [active|]; simplify_eq/=. eauto.
  - intros Heq. destruct (lt_eq_lt_dec j k) as [[Hlt''|Heq']|Hgt]; [|done|].
    + by destruct (Hnear k (data_level ik) ltac:(lia) Hlevk).
    + by destruct (Hnear' j (data_level ij) ltac:(lia) Hlevj).
Qed.

Lemma X5_ancestors_witness :
  Z.of_nat 0 < 2 /\
  (exists active, nestedOutline !! Z.to_nat 2 = Some active /\
                  1 < data_level active) /\
  (1 = 2 -> 0%nat = 1%nat).
Proof.
  apply (X5_ancestors_precede_and_have_distinct_levels nestedOutline 2 0%nat 1%nat
           {| data_level := 1; data_line := 0; span_text := js "A";
              cls_active := false; cls_parent_visible := true |}
           {| data_level := 2; data_line := 3; span_text := js "B";
              cls_active := false; cls_parent_visible := true |});
    reflexivity.
Defined.

(** ** [areHeadersStructurallyEqual] is an equivalence *)

Lemma structurallyEqual_raw_refl A : structurallyEqual_raw A A.
Proof. split; [done|]. intros i a b Ha Hb. by simplify_eq. Qed.

Lemma structurallyEqual_raw_sym A B :
  structurallyEqual_raw A B -> structurallyEqual_raw B A.
Proof.
  intros [Hlen H]. split; [done|]. intros i a b Ha Hb.
  destruct (H i b a Hb Ha). done.
Qed.

Lemma structurallyEqual_raw_trans A B C :
  structurallyEqual_raw A B -> structurallyEqual_raw B C ->
  structurallyEqual_raw A C.
Proof.
  intros [Hlen1 H1] [Hlen2 H2]. split; [congruence|]. intros i a c Ha Hc.
  destruct (lookup_lt_is_Some_2 B i) as [b Hb].
  { apply lookup_lt_Some in Ha. lia. }
  destruct (H1 i a b Ha Hb) as [? ?]. destruct (H2 i b c Hb Hc) as [? ?].
  split; congruence.
Qed.

(** X6: the structure check is an equivalence on heading sequences: every
    sequence is equal to itself, the order of the two arguments does not
    matter, and two sequences equal to a third are equal to each other. *)
Theorem X6_structural_equality_is_equivalence :
  forall A B C : list TocItem,
    areHeadersStructurallyEqual A A = true /\
    areHeadersStructurallyEqual A B = areHeadersStructurallyEqual B A /\
    (areHeadersStructurallyEqual A B = true ->
     areHeadersStructurallyEqual B C = true ->
     areHeadersStructurallyEqual A C = true).
Proof.
  intros A B C. split; [|split].
  - apply areHeadersStructurallyEqual_raw, structurallyEqual_raw_refl.
  - destruct (areHeadersStructurallyEqual A B) eqn:HAB,
             (areHeadersStructurallyEqual B A) eqn:HBA; try done.
    + apply areHeadersStructurallyEqual_raw, structurallyEqual_raw_sym,
        areHeadersStructurallyEqual_raw in HAB. congruence.
    + apply areHeadersStructurallyEqual_raw, structurallyEqual_raw_sym,
        areHeadersStructurallyEqual_raw in HBA. congruence.
  - intros HAB HBC. apply areHeadersStructurallyEqual_raw.
    eapply structurallyEqual_raw_trans; by apply areHeadersStructurallyEqual_raw.
Qed.

(** ** The resolver changes classes and the stored index only *)

Lemma panelData_setActiveIndex p items index :
  containerEl p = Some items ->
  panelData (setActiveIndex p items index) = panelData p.
Proof.
  intros Hc. unfold panelData, setActiveIndex. simpl.
  by rewrite Hc, itemData_updateActiveItem.
Qed.

Lemma previewMatch_cases p view s items :
  previewMatch p view s items = p \/
  exists level headerText (m : nat),
    previewCandidate view s = Some (level, headerText) /\
    matches items level headerText m /\
    chooseMatch (lastActiveIndex p) (matchingIndices items level headerText)
      = Z.of_nat m /\
    previewMatch p view s items = setActiveIndex p items (Z.of_nat m).
Proof.
  destruct (previewCandidate view s) as [[level headerText]|] eqn:Hcand.
  - rewrite (previewMatch_candidate p view s items level headerText Hcand). simpl.
    destruct (matchingIndices items level headerText) as [|x ms] eqn:Hms.
    { by left. }
    destruct (chooseMatch_matchingIndices items level headerText (lastActiveIndex p))
      as (m & Hm & Hmatch & _); [by rewrite Hms|].
    rewrite Hms in Hm. rewrite Hm.
    replace (Z.of_nat m >=? 0) with true
      by (symmetry; rewrite Z.geb_leb; apply Z.leb_le; lia).
    right. exists level, headerText, m. by rewrite Hms.
  - left. unfold previewCandidate in Hcand. unfold previewMatch.
    destruct (findActiveDomHeader _ _ _) as [h|]; [|done].
    by destruct (headerTextOf h).
Qed.

Lemma highlight_frame p view specificLine :
  lastHeadings (highlightActiveHeader p view specificLine) = lastHeadings p /\
  blockScrollEvent (highlightActiveHeader p view specificLine) = blockScrollEvent p /\
  panelData (highlightActiveHeader p view specificLine) = panelData p.
Proof.
  unfold highlightActiveHeader.
  destruct (containerEl p) as [items|] eqn:Hc; [|done].
  destruct (getMode view).
  - unfold panelData. simpl. by rewrite Hc, itemData_updateActiveItem.
  - destruct (getScroller view) as [s|]; [|done].
    destruct (Qlt_bool (scrollTop s) 50 && negb (length items =? 0)%nat).
    + by rewrite panelData_setActiveIndex.
    + destruct (previewMatch_cases p view s items)
        as [->|(level & headerText & m & _ & _ & _ & ->)]; [done|].
      by rewrite panelData_setActiveIndex.
Qed.

(** X7: [highlightActiveHeader] writes nothing but the two visibility
    classes and [lastActiveIndex]: the cached headings, the scroll guard,
    the presence of the panel, the number of its items and the level, line
    and text of every item are the same after it as before. *)
Theorem X7_resolver_keeps_headings_guard_and_item_data :
  forall (p : Plugin) (view : View) (specificLine : option Z),
    lastHeadings (highlightActiveHeader p view specificLine) = lastHeadings p /\
    blockScrollEvent (highlightActiveHeader p view specificLine) = blockScrollEvent p /\
    panelData (highlightActiveHeader p view specificLine) = panelData p.
Proof. intros p view specificLine. apply highlight_frame. Qed.

(** ** The panel follows the cached headings *)

Lemma inSync_frame p p' :
  lastHeadings p' = lastHeadings p -> panelData p' = panelData p ->
  inSync p -> inSync p'.
Proof.
  unfold inSync, panelData. intros Hh Hd Hs. rewrite Hh.
  destruct (containerEl p) as [items|], (containerEl p') as [items'|];
    simplify_eq/=; congruence.
Qed.

Lemma patchLines_data (items : list Item) (old new : list TocItem) :
  itemData <$> items = headingData <$> old ->
  areHeadersStructurallyEqual old new = true ->
  itemData <$> patchLines items new = headingData <$> new.
Proof.
  intros Hdata [Hlen Hsame]%areHeadersStructurallyEqual_raw.
  apply list_eq. intros j. unfold patchLines.
  rewrite !list_lookup_fmap, list_lookup_imap.
  apply (f_equal (fun l => l !! j)) in Hdata.
  rewrite !list_lookup_fmap in Hdata.
  destruct (old !! j) as [ho|] eqn:Ho.
  - destruct (lookup_lt_is_Some_2 new j) as [hn Hn].
    { apply lookup_lt_Some in Ho. lia. }
    rewrite Hn. destruct (items !! j) as [item|]; simplify_eq/=.
    destruct (Hsame j ho hn Ho Hn) as [Hl Ht].
    unfold itemData, headingData in *. simplify_eq/=.
    congruence.
  - rewrite (lookup_ge_None_2 new j); [|apply lookup_ge_None in Ho; lia].
    by destruct (items !! j).
Qed.

Lemma updateToc_synced p view :
  inSync p ->
  lastHeadings (updateToc p (Some view)) = getTocHeaders view /\
  exists items,
    containerEl (updateToc p (Some view)) = Some items /\
    itemData <$> items = headingData <$> getTocHeaders view.
Proof.
  intros Hsync. unfold updateToc.
  set (p1 := match containerEl p with
             | Some _ => p
             | None => _
             end).
  assert (Hp1 : exists items, containerEl p1 = Some items /\
            itemData <$> items = headingData <$> lastHeadings p1 /\
            lastHeadings p1 = lastHeadings p).
  { unfold p1, inSync in *. destruct (containerEl p) as [items|] eqn:Hc.
    - exists items. by rewrite Hc.
    - exists []. simpl. by rewrite Hsync. }
  destruct Hp1 as (items & Hc1 & Hd1 & Hh1).
  destruct (areHeadersStructurallyEqual (lastHeadings p1) (getTocHeaders view))
    eqn:Heq.
  - assert (Hlen : length items = length (getTocHeaders view)).
    { apply areHeadersStructurallyEqual_raw in Heq as [Hlen _].
      apply (f_equal length) in Hd1. rewrite !length_fmap in Hd1. lia. }
    assert (Hpatch : containerEl (updateTocPositions p1 (getTocHeaders view))
                     = Some (patchLines items (getTocHeaders view))).
    { unfold updateTocPositions. rewrite Hc1.
      by rewrite (proj2 (Nat.eqb_eq _ _) Hlen). }
    match goal with |- context [highlightActiveHeader ?q view None] =>
      set (q0 := q) end.
    destruct (highlight_frame q0 view None) as (Hh & _ & Hd).
    rewrite Hh. split; [done|].
    unfold panelData in Hd. unfold q0 in Hd at 2. simpl in Hd.
    rewrite Hpatch in Hd. simpl in Hd.
    destruct (containerEl (highlightActiveHeader q0 view None)) as [items'|];
      [|done].
    exists items'. split; [done|]. simpl in Hd. simplify_eq. rewrite Hd.
    by apply (patchLines_data items (lastHeadings p1)).
  - unfold renderToc. rewrite Hc1. simpl. split; [done|].
    eexists. split; [done|]. rewrite <- list_fmap_compose.
    by apply list_fmap_ext.
Qed.

Lemma inSync_updateToc p activeView : inSync p -> inSync (updateToc p activeView).
Proof.
  intros Hsync. destruct activeView as [view|]; [|done].
  destruct (updateToc_synced p view Hsync) as (Hh & items & Hc & Hd).
  unfold inSync. by rewrite Hc, Hh.
Qed.

Lemma inSync_highlight p view specificLine :
  inSync p -> inSync (highlightActiveHeader p view specificLine).
Proof.
  destruct (highlight_frame p view specificLine) as (Hh & _ & Hd).
  by apply inSync_frame.
Qed.

Lemma inSync_handle p e : inSync p -> inSync (handle p e).
Proof.
  intros Hsync. destruct e as [activeView|view| |view cursorLine|view index]; simpl.
  - by apply inSync_updateToc.
  - unfold onScroll. destruct (blockScrollEvent p); [done|].
    by apply inSync_highlight.
  - done.
  - unfold handleCursorActivity.
    destruct (getMode view); [|done]. destruct (editor view); [|done].
    by apply inSync_highlight.
  - unfold onItemClick. destruct (file view); [|done].
    unfold inSync in *. simpl.
    destruct (containerEl p) as [items|]; [|done].
    by rewrite itemData_updateActiveItem.
Qed.

Lemma inSync_fold events : forall p, inSync p -> inSync (fold_left handle events p).
Proof.
  induction events as [|e events IH]; intros p Hsync; simpl; [done|].
  by apply IH, inSync_handle.
Qed.

Lemma inSync_run events : inSync (run events).
Proof. by apply inSync_fold. Qed.

(** X8: after every sequence of events the panel shows the cached
    headings: it has one item per heading of [lastHeadings], in the same
    order, each with the level, the line and the stripped text of its
    heading; as long as there is no panel the cache is empty. *)
Theorem X8_panel_in_sync_with_cached_headings :
  forall events : list Event, inSync (run events).
Proof. apply inSync_run. Qed.

(** X9: after every sequence of events, an [updateToc] for an active view
    leaves a panel that shows the current headings of that view, whether it
    patched the lines or rebuilt the items: one item per heading, in order,
    with its level, its current line and its stripped text, and the cache
    holds these headings. *)
Theorem X9_updateToc_shows_current_headings :
  forall (events : list Event) (view : View),
    lastHeadings (run (events ++ [EvUpdateToc (Some view)])) = getTocHeaders view /\
    exists items,
      containerEl (run (events ++ [EvUpdateToc (Some view)])) = Some items /\
      itemData <$> items = headingData <$> getTocHeaders view.
Proof.
  intros events view. unfold run. rewrite fold_left_app. simpl.
  apply updateToc_synced, inSync_fold. done.
Qed.

(** ** [updateTocPositions] *)

Lemma patchLines_lookup (items : list Item) (headers : list TocItem) j item h :
  items !! j = Some item -> headers !! j = Some h ->
  patchLines items headers !! j = Some (setLine item (toc_line h)).
Proof.
  intros Hi Hh. unfold patchLines. by rewrite list_lookup_imap, Hi, Hh.
Qed.

Lemma patchLines_lines (items : list Item) (headers : list TocItem) :
  length items = length headers ->
  data_line <$> patchLines items headers = toc_line <$> headers.
Proof.
  intros Hlen. apply list_eq. intros j. unfold patchLines.
  rewrite !list_lookup_fmap, list_lookup_imap.
  destruct (items !! j) as [item|] eqn:Hi.
  - destruct (lookup_lt_is_Some_2 headers j) as [h Hh].
    { apply lookup_lt_Some in Hi. lia. }
    by rewrite Hh.
  - rewrite (lookup_ge_None_2 headers j); [done|].
    apply lookup_ge_None in Hi. lia.
Qed.

Lemma patchLines_rest (items : list Item) (headers : list TocItem) :
  itemRest <$> patchLines items headers = itemRest <$> items.
Proof.
  apply list_eq. intros j. unfold patchLines.
  rewrite !list_lookup_fmap, list_lookup_imap.
  destruct (items !! j) as [item|]; [|done]. simpl.
  by destruct (headers !! j).
Qed.

(** X10: when the panel has as many items as there are headings,
    [updateTocPositions] gives every item the line of the heading at its
    index and keeps its level, text and classes, and it keeps the stored
    index, the cache and the guard; when the numbers differ, or there is
    no panel, it changes nothing. *)
Theorem X10_updateTocPositions_patches_lines_only :
  forall (p : Plugin) (headers : list TocItem),
    (forall items,
       containerEl p = Some items -> length items = length headers ->
       exists items',
         containerEl (updateTocPositions p headers) = Some items' /\
         data_line <$> items' = toc_line <$> headers /\
         itemRest <$> items' = itemRest <$> items /\
         lastActiveIndex (updateTocPositions p headers) = lastActiveIndex p /\
         lastHeadings (updateTocPositions p headers) = lastHeadings p /\
         blockScrollEvent (updateTocPositions p headers) = blockScrollEvent p) /\
    ((forall items, containerEl p = Some items -> length items <> length headers) ->
     updateTocPositions p headers = p).
Proof.
  intros p headers. split.
  - intros items Hc Hlen. unfold updateTocPositions. rewrite Hc.
    rewrite (proj2 (Nat.eqb_eq _ _) Hlen). simpl.
    eexists. split; [done|].
    split; [by apply patchLines_lines|]. split; [apply patchLines_rest|done].
  - intros Hne. unfold updateTocPositions.
    destruct (containerEl p) as [items|]; [|done].
    by rewrite (proj2 (Nat.eqb_neq _ _) (Hne items eq_refl)).
Qed.

(** ** [updateToc] after a structural change *)

Lemma allCleared_createItem (headers : list TocItem) :
  allCleared (createItem <$> headers).
Proof. unfold allCleared. apply Forall_fmap, Forall_true. by intros h. Qed.

Lemma updateToc_rebuild_cleared p view :
  areHeadersStructurallyEqual (lastHeadings p) (getTocHeaders view) = false ->
  containerEl (updateToc p (Some view)) = Some (createItem <$> getTocHeaders view).
Proof.
  intros Hdiff. unfold updateToc.
  destruct (containerEl p) eqn:Hc; simpl; rewrite Hdiff;
    unfold renderToc; simpl; by rewrite ?Hc.
Qed.

(** X11: when the headings of the view differ in structure from the cached
    ones, [updateToc] rebuilds the panel and does not resolve the position
    again: the panel has one item per heading and no item is active or
    marked as an ancestor until the next scroll or cursor event. *)
Theorem X11_rebuild_leaves_no_item_marked :
  forall (p : Plugin) (view : View),
    areHeadersStructurallyEqual (lastHeadings p) (getTocHeaders view) = false ->
    exists items,
      containerEl (updateToc p (Some view)) = Some items /\
      length items = length (getTocHeaders view) /\
      allCleared items.
Proof.
  intros p view Hdiff. eexists.
  split; [by apply updateToc_rebuild_cleared|].
  split; [by rewrite length_fmap|apply allCleared_createItem].
Qed.

Lemma X11_rebuild_witness :
  exists items,
    containerEl (updateToc samplePlugin (Some (sourceView editedHeadings)))
      = Some items /\
    length items = length editedHeadings /\
    allCleared items.
Proof.
  apply (X11_rebuild_leaves_no_item_marked samplePlugin (sourceView editedHeadings)).
  by vm_compute.
Defined.

(** ** The scroll guard *)

Lemma onScroll_blocked p view : blockScrollEvent p = true -> onScroll p view = p.
Proof. intros Hb. unfold onScroll. by rewrite Hb. Qed.

Lemma fold_onScroll_blocked views : forall p,
  blockScrollEvent p = true -> fold_left onScroll views p = p.
Proof.
  induction views as [|v views IH]; intros p Hb; simpl; [done|].
  rewrite onScroll_blocked by done. by apply IH.
Qed.

(** X12: a click on an item that was rendered for a view with a file
    stores the clicked index, marks the items for it and sets the scroll
    guard; after it scroll events are not resolved, however many arrive,
    and the state stays the one the click left; the first user input on
    the scroller ends this, and the next scroll event is resolved again.
    A click on an item of a view that has no file changes nothing, and the
    scroll events that follow are handled as without the click. *)
Theorem X12_click_guards_scroll_until_user_input :
  forall (p : Plugin) (clicked : View) (index : Z) (views : list View) (view : View),
    (file clicked <> None ->
     lastActiveIndex (onItemClick p clicked index) = index /\
     blockScrollEvent (onItemClick p clicked index) = true /\
     containerEl (onItemClick p clicked index)
       = (fun items => updateActiveItem items index) <$> containerEl p /\
     lastHeadings (onItemClick p clicked index) = lastHeadings p /\
     fold_left onScroll views (onItemClick p clicked index)
       = onItemClick p clicked index /\
     onScroll (resetBlock (onItemClick p clicked index)) view
       = highlightActiveHeader (resetBlock (onItemClick p clicked index)) view None) /\
    (file clicked = None ->
     onItemClick p clicked index = p /\
     fold_left onScroll views (onItemClick p clicked index)
       = fold_left onScroll views p).
Proof.
  intros p clicked index views view. unfold onItemClick.
  destruct (file clicked) as [f|]; split; try done.
  intros _.
  rewrite fold_onScroll_blocked by done. simpl.
  by destruct (containerEl p).
Qed.

Lemma X12_click_guards_scroll_witness :
  lastActiveIndex (onItemClick freshPlugin scrolledSourceView 2) = 2 /\
  blockScrollEvent (onItemClick freshPlugin scrolledSourceView 2) = true /\
  containerEl (onItemClick freshPlugin scrolledSourceView 2)
    = (fun items => updateActiveItem items 2) <$> containerEl freshPlugin /\
  lastHeadings (onItemClick freshPlugin scrolledSourceView 2)
    = lastHeadings freshPlugin /\
  fold_left onScroll [estimatingView; topSourceView]
    (onItemClick freshPlugin scrolledSourceView 2)
    = onItemClick freshPlugin scrolledSourceView 2 /\
  onScroll (resetBlock (onItemClick freshPlugin scrolledSourceView 2)) estimatingView
    = highlightActiveHeader
        (resetBlock (onItemClick freshPlugin scrolledSourceView 2)) estimatingView None.
Proof.
  apply (proj1 (X12_click_guards_scroll_until_user_input
                  freshPlugin scrolledSourceView 2
                  [estimatingView; topSourceView] estimatingView)).
  discriminate.
Defined.

(** ** The source branch of the resolver *)

Lemma scanActiveIndex_range specific currentLine items :
  -1 <= scanActiveIndex specific currentLine items < Z.max 0 (Z.of_nat (length items)).
Proof.
  unfold scanActiveIndex. rewrite scanItems_readPrefix.
  pose proof (readPrefix_le currentLine items) as Hle.
  destruct (readPrefix currentLine items) as [|n]; simpl.
  - destruct (_ >=? _) eqn:Hge; [apply Z.geb_le in Hge|]; lia.
  - destruct specific; destruct (_ >=? _) eqn:Hge;
      try (rewrite Z.geb_leb in Hge; apply Z.leb_gt in Hge); lia.
Qed.

Lemma sourceIndex_range view specificLine items :
  items <> [] ->
  -1 <= sourceIndex view specificLine items < Z.of_nat (length items).
Proof.
  intros Hne. unfold sourceIndex, sourceActiveIndex.
  assert (0 < Z.of_nat (length items)) by (destruct items; [done|simpl; lia]).
  pose proof (scanActiveIndex_range
                (match specificLine with Some _ => true | None => false end)
                (sourceLine view specificLine) items).
  destruct (editor view) as [ed|]; [|lia].
  destruct (Qlt_bool (scrollInfo_top ed) 50); lia.
Qed.

Lemma highlight_indexInRange p view specificLine items :
  containerEl p = Some items ->
  items <> [] ->
  indexInRange p items ->
  indexInRange (highlightActiveHeader p view specificLine) items.
Proof.
  intros Hc Hne Hin. unfold indexInRange in *.
  assert (0 < Z.of_nat (length items)) by (destruct items; [done|simpl; lia]).
  destruct (getMode view) eqn:Hm.
  - rewrite (highlight_source p view specificLine items Hc Hm). simpl.
    pose proof (sourceIndex_range view specificLine items Hne).
    destruct (_ >=? _); lia.
  - unfold highlightActiveHeader. rewrite Hc, Hm.
    destruct (getScroller view) as [s|]; [|done].
    destruct (Qlt_bool (scrollTop s) 50 && negb (length items =? 0)%nat);
      [simpl; lia|].
    destruct (previewMatch_cases p view s items)
      as [->|(level & headerText & m & _ & Hmatch & _ & ->)]; [done|].
    simpl. apply matches_lt in Hmatch. lia.
Qed.

(** X13: for a panel with at least one item, the resolver keeps the stored
    index within the panel: if [lastActiveIndex] was -1 or the index of an
    item before [highlightActiveHeader], it is so afterwards, in both
    modes and for every scroll position and cursor line. *)
Theorem X13_resolver_keeps_index_in_range :
  forall (p : Plugin) (view : View) (specificLine : option Z) (items : list Item),
    containerEl p = Some items ->
    items <> [] ->
    indexInRange p items ->
    indexInRange (highlightActiveHeader p view specificLine) items.
Proof. apply highlight_indexInRange. Qed.

Lemma X13_index_in_range_witness :
  indexInRange (highlightActiveHeader samplePlugin scrolledSourceView (Some 12))
    sampleItems.
Proof.
  apply (X13_resolver_keeps_index_in_range samplePlugin scrolledSourceView
           (Some 12) sampleItems).
  - reflexivity.
  - discriminate.
  - unfold indexInRange. simpl. lia.
Defined.

(** X14: in source mode, with the editor scrolled by 50 pixels or more, a
    cursor line before the line of the first item deselects everything:
    [handleCursorActivity] runs the resolver, after which no item is active
    or marked as an ancestor, every item keeps its level, line and text,
    and [lastActiveIndex] keeps the index it had. *)
Theorem X14_cursor_before_first_heading_clears :
  forall (p : Plugin) (view : View) (ed : Editor) (l : Z)
         (items : list Item) (first : Item),
    containerEl p = Some items ->
    getMode view = source ->
    editor view = Some ed ->
    (50 <= scrollInfo_top ed)%Q ->
    0 <= l ->
    items !! 0%nat = Some first ->
    l < data_line first ->
    handleCursorActivity p view l = highlightActiveHeader p view (Some l) /\
    exists items' : list Item,
      containerEl (handleCursorActivity p view l) = Some items' /\
      allCleared items' /\
      itemData <$> items' = itemData <$> items /\
      lastActiveIndex (handleCursorActivity p view l) = lastActiveIndex p.
Proof.
  intros p view ed l items first Hc Hm Hed Htop Hl Hfirst Hbefore.
  assert (Hcall : handleCursorActivity p view l
                  = highlightActiveHeader p view (Some l)).
  { unfold handleCursorActivity. by rewrite Hm, Hed. }
  split; [done|]. rewrite Hcall.
  rewrite (highlight_source p view (Some l) items Hc Hm). simpl.
  assert (Hidx : sourceIndex view (Some l) items = -1).
  { rewrite sourceIndex_away by (intros ed' Hed'; congruence).
    rewrite sourceLine_cursor by lia.
    apply scanActiveIndex_none. destruct items; by simplify_eq/=. }
  rewrite Hidx. simpl.
  exists (updateActiveItem items (-1)).
  split; [done|].
  split; [rewrite updateActiveItem_invalid by lia; apply allCleared_clearVisibility|].
  split; [apply itemData_updateActiveItem|done].
Qed.

Lemma X14_cursor_before_first_witness :
  handleCursorActivity markedPlugin scrolledSourceView 1
    = highlightActiveHeader markedPlugin scrolledSourceView (Some 1) /\
  exists items' : list Item,
    containerEl (handleCursorActivity markedPlugin scrolledSourceView 1)
      = Some items' /\
    allCleared items' /\
    itemData <$> items' = itemData <$> updateActiveItem lateOutline 1 /\
    lastActiveIndex (handleCursorActivity markedPlugin scrolledSourceView 1) = 1.
Proof.
  apply (X14_cursor_before_first_heading_clears markedPlugin scrolledSourceView
           scrolledEditor 1 (updateActiveItem lateOutline 1)
           {| data_level := 1; data_line := 3; span_text := js "Intro";
              cls_active := false; cls_parent_visible := true |}).
  - reflexivity.
  - reflexivity.
  - reflexivity.
  - by vm_compute.
  - lia.
  - by vm_compute.
  - simpl. lia.
Defined.

(** ** The preview branch of the resolver *)

(** X15: in preview mode, away from the top of the document, when exactly
    one item has the level and the text of the selected heading, that item
    becomes the active one whatever [lastActiveIndex] was: its index is
    stored, it carries the active class and no other item does, and the
    items are marked as [updateActiveItem] marks them for that index. *)
Theorem X15_unique_match_is_selected :
  forall (p : Plugin) (view : View) (specificLine : option Z)
         (items : list Item) (s : Scroller) (level : Z) (headerText : jsstring)
         (m : nat),
    containerEl p = Some items ->
    getMode view = preview ->
    getScroller view = Some s ->
    awayFromTop s ->
    previewCandidate view s = Some (level, headerText) ->
    matches items level headerText m ->
    (forall j, matches items level headerText j -> j = m) ->
    lastActiveIndex (highlightActiveHeader p view specificLine) = Z.of_nat m /\
    exists items' : list Item,
      containerEl (highlightActiveHeader p view specificLine) = Some items' /\
      items' = updateActiveItem items (Z.of_nat m) /\
      (exists item, items' !! m = Some item /\ cls_active item = true) /\
      (forall j item, items' !! j = Some item -> cls_active item = true -> j = m).
Proof.
  intros p view specificLine items s level headerText m
         Hc Hm Hs Haway Hcand Hmatch Honly.
  assert (Hne : matchingIndices items level headerText <> []).
  { intros Hnil. by apply (proj1 (matchingIndices_nil _ _ _) Hnil m). }
  rewrite (highlight_preview_matched p view specificLine items s level headerText)
    by done.
  destruct (chooseMatch_matchingIndices items level headerText (lastActiveIndex p) Hne)
    as (m' & -> & Hm' & _).
  rewrite (Honly m' Hm'). simpl.
  split; [done|].
  exists (updateActiveItem items (Z.of_nat m)).
  split; [done|]. split; [done|].
  split; [by apply updateActiveItem_active_at, (matches_lt _ level headerText)|].
  intros j item Hj Hact.
  apply (updateActiveItem_active_iff items (Z.of_nat m) j item Hj) in Hact. lia.
Qed.

Lemma tiedOutline_Flags_only :
  forall j, matches tiedOutline 3 (js "Flags") j -> j = 4%nat.
Proof.
  intros j Hj.
  assert (Hin : Z.of_nat j ∈ matchingIndices tiedOutline 3 (js "Flags"))
    by (apply elem_of_matchingIndices; eauto).
  change (matchingIndices tiedOutline 3 (js "Flags")) with [4] in Hin.
  apply list_elem_of_singleton in Hin. lia.
Defined.

Lemma tiedOutline_matches_Flags : matches tiedOutline 3 (js "Flags") 4.
Proof. eexists. split; [reflexivity|]. split; reflexivity. Defined.

Lemma X15_unique_match_witness :
  lastActiveIndex (highlightActiveHeader tiedPlugin flagsView None) = Z.of_nat 4 /\
  exists items' : list Item,
    containerEl (highlightActiveHeader tiedPlugin flagsView None) = Some items' /\
    items' = updateActiveItem tiedOutline (Z.of_nat 4) /\
    (exists item, items' !! 4%nat = Some item /\ cls_active item = true) /\
    (forall j item, items' !! j = Some item -> cls_active item = true -> j = 4%nat).
Proof.
  apply (X15_unique_match_is_selected tiedPlugin flagsView None tiedOutline
           readingScroller 3 (js "Flags") 4%nat).
  - reflexivity.
  - reflexivity.
  - reflexivity.
  - unfold awayFromTop. simpl. by vm_compute.
  - by vm_compute.
  - exact tiedOutline_matches_Flags.
  - exact tiedOutline_Flags_only.
Defined.

(** ** Resolving twice *)

Lemma scanItems_of_lines specific currentLine (items : list Item) :
  forall (items' : list Item) i acc,
    data_line <$> items' = data_line <$> items ->
    scanItems specific currentLine i items' acc
    = scanItems specific currentLine i items acc.
Proof.
  induction items as [|item rest IH]; intros [|item' rest'] i acc Hl;
    simplify_eq/=; [done|].
  rewrite H. destruct (data_line item <=? currentLine); [|done]. by apply IH.
Qed.

Lemma lines_of_itemData (items items' : list Item) :
  itemData <$> items' = itemData <$> items ->
  data_line <$> items' = data_line <$> items.
Proof.
  intros Hd. apply (f_equal (fmap (fun d : Z * Z * jsstring => d.1.2))) in Hd.
  by rewrite <- !list_fmap_compose in Hd.
Qed.

Lemma length_of_itemData (items items' : list Item) :
  itemData <$> items' = itemData <$> items -> length items' = length items.
Proof. intros Hd. apply (f_equal length) in Hd. by rewrite !length_fmap in Hd. Qed.

Lemma sourceIndex_of_itemData view specificLine (items items' : list Item) :
  itemData <$> items' = itemData <$> items ->
  sourceIndex view specificLine items' = sourceIndex view specificLine items.
Proof.
  intros Hd. unfold sourceIndex, sourceActiveIndex, scanActiveIndex.
  rewrite (length_of_itemData items items' Hd).
  by rewrite (scanItems_of_lines _ _ items items' 0 (-1) (lines_of_itemData _ _ Hd)).
Qed.

Lemma matchingFrom_of_itemData level headerText (items : list Item) :
  forall (items' : list Item) i,
    itemData <$> items' = itemData <$> items ->
    matchingFrom i items' level headerText = matchingFrom i items level headerText.
Proof.
  induction items as [|item rest IH]; intros [|item' rest'] i Hd;
    simplify_eq/=; [done|].
  rewrite H, H2. by rewrite (IH rest' (i + 1) H0).
Qed.

Lemma chooseMatch_fixed last ms :
  ms <> [] -> chooseMatch (chooseMatch last ms) ms = chooseMatch last ms.
Proof.
  intros Hne.
  destruct (chooseMatch_first_closest last ms Hne)
    as (m & pre & post & Hm & Hsplit & _ & _).
  destruct (chooseMatch_first_closest m ms Hne)
    as (b & pre' & post' & Hb & _ & Hmin & _).
  rewrite Hm, Hb.
  assert (Hin : m ∈ ms) by (rewrite Hsplit; apply elem_of_app; right; left).
  specialize (Hmin m Hin). lia.
Qed.

Lemma highlight_twice p view specificLine :
  highlightActiveHeader (highlightActiveHeader p view specificLine) view specificLine
  = highlightActiveHeader p view specificLine.
Proof.
  destruct (containerEl p) as [items|] eqn:Hc.
  2:{ assert (Hp : highlightActiveHeader p view specificLine = p).
      { unfold highlightActiveHeader. by rewrite Hc. }
      by rewrite !Hp. }
  destruct (getMode view) eqn:Hm.
  - rewrite (highlight_source p view specificLine items Hc Hm).
    set (a := sourceIndex view specificLine items).
    erewrite highlight_source; [|reflexivity|done]. simpl.
    pose proof (itemData_updateActiveItem items a) as Hd.
    rewrite (sourceIndex_of_itemData view specificLine items _ Hd). fold a.
    rewrite (updateActiveItem_of_itemData items _ a Hd).
    by destruct (a >=? 0).
  - destruct (getScroller view) as [s|] eqn:Hs.
    2:{ assert (Hp : highlightActiveHeader p view specificLine = p).
        { unfold highlightActiveHeader. by rewrite Hc, Hm, Hs. }
        by rewrite !Hp. }
    rewrite (highlight_preview p view specificLine items s Hc Hm Hs).
    destruct (Qlt_bool (scrollTop s) 50 && negb (length items =? 0)%nat) eqn:Htop.
    + erewrite highlight_preview; [|reflexivity|done|done].
      rewrite length_updateActiveItem, Htop.
      unfold setActiveIndex. simpl.
      by rewrite (updateActiveItem_of_itemData items _ 0
                    (itemData_updateActiveItem items 0)).
    + destruct (previewMatch_cases p view s items)
        as [Hp|(level & headerText & m & Hcand & Hmatch & Hchoose & Hp)];
        rewrite Hp.
      * by rewrite (highlight_preview p view specificLine items s Hc Hm Hs), Htop.
      * erewrite highlight_preview; [|reflexivity|done|done].
        rewrite length_updateActiveItem, Htop.
        rewrite (previewMatch_candidate _ view s _ level headerText Hcand).
        pose proof (itemData_updateActiveItem items (Z.of_nat m)) as Hd.
        unfold matchingIndices.
        rewrite (matchingFrom_of_itemData level headerText items _ 0 Hd).
        fold (matchingIndices items level headerText).
        assert (Hfix : chooseMatch (Z.of_nat m) (matchingIndices items level headerText)
                       = Z.of_nat m).
        { rewrite <- Hchoose at 1. rewrite chooseMatch_fixed; [done|].
          intros Hnil. by apply (proj1 (matchingIndices_nil _ _ _) Hnil m). }
        simpl. rewrite Hfix.
        replace (Z.of_nat m >=? 0) with true
          by (symmetry; rewrite Z.geb_leb; apply Z.leb_le; lia).
        unfold setActiveIndex. simpl.
        by rewrite (updateActiveItem_of_itemData items _ (Z.of_nat m) Hd).
Qed.

(** X16: resolving twice for the same view and the same cursor line gives
    what resolving once gives: the second call of [highlightActiveHeader]
    changes neither a class nor [lastActiveIndex], also when the selected
    heading has duplicates in the outline. *)
Theorem X16_resolver_is_idempotent :
  forall (p : Plugin) (view : View) (specificLine : option Z),
    highlightActiveHeader (highlightActiveHeader p view specificLine)
      view specificLine
    = highlightActiveHeader p view specificLine.
Proof. apply highlight_twice. Qed.

(** ** The heading element that preview mode selects *)

Lemma findActiveDomHeader_aboveCount targetTop hs : forall acc,
  findActiveDomHeader targetTop hs acc =
  match aboveCount targetTop hs with
  | O => acc
  | S k =>
      match hs !! S k with
      | Some h => Some h
      | None => hs !! k
      end
  end.
Proof.
  induction hs as [|h rest IH]; intros acc; simpl; [done|].
  destruct (Qle_bool (hdr_top h) targetTop); [|done].
  rewrite IH. destruct (aboveCount targetTop rest) as [|k]; simpl.
  - by destruct rest.
  - by destruct (rest !! S k).
Qed.

Lemma aboveCount_le targetTop hs : (aboveCount targetTop hs <= length hs)%nat.
Proof.
  induction hs as [|h rest IH]; simpl; [lia|].
  destruct (Qle_bool (hdr_top h) targetTop); simpl; lia.
Qed.

(** X17: the preview resolver looks one heading ahead.  With [k] the number
    of leading heading elements at or above the target line, it selects no
    element when [k] is 0, the element after these [k] when there is one
    (the first heading below the line), and the last element otherwise. *)
Theorem X17_preview_selects_heading_after_the_read_ones :
  forall (targetTop : Q) (hs : list DomHeader),
    (aboveCount targetTop hs = O ->
     findActiveDomHeader targetTop hs None = None) /\
    (forall h, (0 < aboveCount targetTop hs)%nat ->
       hs !! aboveCount targetTop hs = Some h ->
       findActiveDomHeader targetTop hs None = Some h) /\
    ((0 < aboveCount targetTop hs)%nat ->
     aboveCount targetTop hs = length hs ->
     findActiveDomHeader targetTop hs None = last hs).
Proof.
  intros targetTop hs.
  rewrite findActiveDomHeader_aboveCount.
  destruct (aboveCount targetTop hs) as [|n] eqn:Hk.
  - split; [done|]. split; [intros h ?; lia|intros ?; lia].
  - split; [done|]. split.
    + intros h _ Hh. by rewrite Hh.
    + intros _ Hlen.
      rewrite (lookup_ge_None_2 hs (S n)) by lia.
      rewrite last_lookup, <- Hlen. done.
Qed.

Lemma X17_preview_selects_witness :
  findActiveDomHeader (previewTargetTop readingScroller) (domHeaders duplicateView) None
  = Some {| hdr_top := 350; hdr_innerText := js "Notes";
            hdr_dataHeading := Some (js "Notes"); hdr_level := 2 |}.
Proof.
  apply (proj1 (proj2 (X17_preview_selects_heading_after_the_read_ones
                         (previewTargetTop readingScroller)
                         (domHeaders duplicateView)))).
  - vm_compute. lia.
  - reflexivity.
Defined.

(** ** [stripMarkdown] on headings without and with markup *)

Section ReplaceFacts.

Local Arguments ch : simpl never.
Local Arguments inClass : simpl never.
Local Arguments N.eqb : simpl never.
Local Arguments setCapture : simpl never.
Local Arguments Nat.sub : simpl never.

Lemma replaceFrom_app_no_match r grp pre s :
  Forall (fun c => forall t, exec r (c :: t) = None) pre ->
  replaceFrom r grp 0 (pre ++ s) = pre ++ replaceFrom r grp 0 s.
Proof.
  intros Hpre. induction Hpre as [|c pre Hc _ IH]; [done|].
  rewrite <- app_comm_cons, replaceFrom_cons_none by apply Hc.
  by rewrite IH.
Qed.

Lemma replaceFrom_skip_prefix r grp mid rest :
  replaceFrom r grp (length mid) (mid ++ rest) = replaceFrom r grp 0 rest.
Proof. induction mid as [|c mid IH]; [done|]. simpl. exact IH. Qed.

Lemma replaceFrom_match_prefix r grp c mid rest caps :
  exec r (c :: mid ++ rest) = Some (caps, rest) ->
  replaceFrom r grp 0 (c :: mid ++ rest) = caps grp ++ replaceFrom r grp 0 rest.
Proof.
  intros Hm. cbn [replaceFrom]. rewrite Hm.
  replace (length (c :: mid ++ rest) - length rest)%nat with (S (length mid))
    by (simpl; rewrite length_app; lia).
  cbv beta iota. by rewrite replaceFrom_skip_prefix.
Qed.

(** One match between two stretches without a match. *)
Lemma replaceAll_one_match r grp pre c mid rest caps :
  exec r [] = None ->
  Forall (fun c => forall t, exec r (c :: t) = None) pre ->
  exec r (c :: mid ++ rest) = Some (caps, rest) ->
  Forall (fun c => forall t, exec r (c :: t) = None) rest ->
  replaceAll r grp (pre ++ c :: mid ++ rest) = pre ++ caps grp ++ rest.
Proof.
  intros He Hpre Hm Hrest. unfold replaceAll.
  rewrite replaceFrom_app_no_match by done.
  rewrite (replaceFrom_match_prefix r grp c mid rest caps Hm).
  by rewrite (replaceFrom_no_match r grp rest He Hrest).
Qed.

Lemma starLazy_run {R : Type} (p : N -> bool) (run tail : jsstring)
    (k : jsstring -> option R) (r : R) :
  Forall (fun c => p c = true) run ->
  Forall (fun c => forall t, k (c :: t) = None) run ->
  k tail = Some r ->
  starLazy p (run ++ tail) k = Some r.
Proof.
  intros Hrun Hk Htail. induction Hrun as [|x run Hx _ IH]; simpl.
  - destruct tail; simpl; by rewrite Htail.
  - apply Forall_cons in Hk as [Hkx Hk]. rewrite Hkx, Hx. by apply IH.
Qed.

End ReplaceFacts.

Section MarkupFacts.

Local Arguments ch : simpl never.
Local Arguments inClass : simpl never.
Local Arguments N.eqb : simpl never.
Local Arguments Nat.sub : simpl never.

Lemma sub_two (n : nat) : (S (S n) - n = 2)%nat.
Proof. lia. Qed.

Lemma sub_one (n : nat) : (S n - n = 1)%nat.
Proof. lia. Qed.

Lemma take_run (run tail : jsstring) :
  take (length (run ++ tail) - length tail) (run ++ tail) = run.
Proof.
  replace (length (run ++ tail) - length tail)%nat with (length run)
    by (rewrite length_app; lia).
  apply take_app_length.
Qed.

Lemma exec_bold d x post :
  d = ch "*" \/ d = ch "_" ->
  Forall notLineTerminator x -> Forall (fun c => c <> d) x ->
  exists caps,
    exec boldRe (d :: d :: x ++ d :: d :: post) = Some (caps, post) /\
    caps 2%nat = x.
Proof.
  intros Hd Hdot Hx.
  assert (Hback : Forall (fun c => N.eqb d c = false) x).
  { eapply Forall_impl; [exact Hx|]. intros c Hc. apply N.eqb_neq. congruence. }
  exists (setCapture 2 x (setCapture 1 [d; d] noCaptures)).
  split; [|done].
  unfold exec, boldRe, seqs.
  destruct Hd as [-> | ->]; cbn;
    [|change (N.eqb (ch "_") (ch "*")) with false; cbv iota];
    rewrite !N.eqb_refl;
    (erewrite starLazy_run; [reflexivity|exact Hdot| |]);
    [ eapply Forall_impl; [exact Hback|]; intros c Hc t;
      rewrite sub_two; cbn [take stripPrefix]; by rewrite Hc
    | rewrite sub_two, take_run; cbn [take stripPrefix];
      by rewrite !N.eqb_refl
    | eapply Forall_impl; [exact Hback|]; intros c Hc t;
      rewrite sub_two; cbn [take stripPrefix]; by rewrite Hc
    | rewrite sub_two, take_run; cbn [take stripPrefix];
      by rewrite !N.eqb_refl ].
Qed.

Lemma exec_italic d x post :
  d = ch "*" \/ d = ch "_" ->
  Forall notLineTerminator x -> Forall (fun c => c <> d) x ->
  exists caps,
    exec italicRe (d :: x ++ d :: post) = Some (caps, post) /\
    caps 2%nat = x.
Proof.
  intros Hd Hdot Hx.
  assert (Hback : Forall (fun c => N.eqb d c = false) x).
  { eapply Forall_impl; [exact Hx|]. intros c Hc. apply N.eqb_neq. congruence. }
  exists (setCapture 2 x (setCapture 1 [d] noCaptures)).
  split; [|done].
  unfold exec, italicRe, seqs.
  destruct Hd as [-> | ->]; cbn;
    [|change (N.eqb (ch "_") (ch "*")) with false; cbv iota];
    rewrite !N.eqb_refl;
    (erewrite starLazy_run; [reflexivity|exact Hdot| |]);
    [ eapply Forall_impl; [exact Hback|]; intros c Hc t;
      rewrite sub_one; cbn [take stripPrefix]; by rewrite Hc
    | rewrite sub_one, take_run; cbn [take stripPrefix];
      by rewrite !N.eqb_refl
    | eapply Forall_impl; [exact Hback|]; intros c Hc t;
      rewrite sub_one; cbn [take stripPrefix]; by rewrite Hc
    | rewrite sub_one, take_run; cbn [take stripPrefix];
      by rewrite !N.eqb_refl ].
Qed.

Lemma exec_code x post :
  x <> [] -> Forall (fun c => c <> ch "`") x ->
  exists caps,
    exec codeRe (ch "`" :: x ++ ch "`" :: post) = Some (caps, post) /\
    caps 1%nat = x.
Proof.
  intros Hne Hx. destruct x as [|a x]; [done|].
  apply Forall_cons in Hx as [Ha Hx].
  exists (setCapture 1 (a :: x) noCaptures). split; [|done].
  unfold exec, codeRe, seqs, plus. cbn.
  rewrite N.eqb_refl, (inClass_not _ _ Ha).
  erewrite starGreedy_run; [reflexivity| | |].
  - by apply Forall_inClass_not.
  - apply inClass_not_same.
  - cbn. rewrite N.eqb_refl.
    replace (S (length (x ++ ch "`" :: post)) - S (length post))%nat
      with (length (a :: x)) by (rewrite length_app; simpl; lia).
    change (a :: x ++ ch "`" :: post) with ((a :: x) ++ ch "`" :: post).
    by rewrite take_app_length.
Qed.

(** A delimiter that is not doubled does not start a bold match. *)
Lemma exec_bold_single_none d c t :
  d = ch "*" \/ d = ch "_" -> c <> d -> exec boldRe (d :: c :: t) = None.
Proof.
  intros Hd Hc. apply N.eqb_neq in Hc.
  unfold exec, boldRe, seqs.
  destruct Hd as [-> | ->]; cbn;
    [change (N.eqb (ch "*") (ch "_")) with false
    |change (N.eqb (ch "_") (ch "*")) with false];
    cbv iota; by rewrite N.eqb_refl, Hc.
Qed.

Lemma exec_bold_alone_none d :
  d = ch "*" \/ d = ch "_" -> exec boldRe [d] = None.
Proof. intros [-> | ->]; by vm_compute. Qed.

End MarkupFacts.

Lemma markerFree_no_match c :
  markerFree c ->
  (forall t, exec linkRe (c :: t) = None) /\
  (forall t, exec boldRe (c :: t) = None) /\
  (forall t, exec italicRe (c :: t) = None) /\
  (forall t, exec codeRe (c :: t) = None).
Proof.
  intros (H1 & H2 & H3 & H4). repeat split; intros t.
  - by apply exec_link_none.
  - by apply exec_bold_none.
  - by apply exec_italic_none.
  - by apply exec_code_none.
Qed.

(** Without an opening bracket in the text there is no image to replace. *)
Lemma replaceFrom_image_no_bracket s :
  Forall (fun c => c <> ch "[") s -> replaceFrom imageRe 1 0 s = s.
Proof.
  intros Hs. induction Hs as [|c s Hc Hs IH]; [by vm_compute|].
  rewrite replaceFrom_cons_none; [by rewrite IH|].
  destruct (decide (c = ch "!")) as [->|Hbang]; [|by apply exec_image_none].
  destruct Hs as [|c' s' Hc' _]; [by vm_compute|].
  by apply exec_image_bang_none.
Qed.

Lemma stripMarkdown_markerFree s :
  Forall markerFree s -> stripMarkdown s = s.
Proof.
  intros Hs. unfold stripMarkdown, replaceAll.
  rewrite (replaceFrom_no_match linkRe); [|by vm_compute|].
  2:{ eapply Forall_impl; [exact Hs|]. intros c Hc. by apply markerFree_no_match. }
  rewrite (replaceFrom_no_match boldRe); [|by vm_compute|].
  2:{ eapply Forall_impl; [exact Hs|]. intros c Hc. by apply markerFree_no_match. }
  rewrite (replaceFrom_no_match italicRe); [|by vm_compute|].
  2:{ eapply Forall_impl; [exact Hs|]. intros c Hc. by apply markerFree_no_match. }
  rewrite (replaceFrom_no_match codeRe); [|by vm_compute|].
  2:{ eapply Forall_impl; [exact Hs|]. intros c Hc. by apply markerFree_no_match. }
  apply replaceFrom_image_no_bracket.
  eapply Forall_impl; [exact Hs|]. intros c Hc. apply Hc.
Qed.

(** X18: a heading text that contains none of the characters [[], [*], [_]
    and the backtick is its own label: [stripMarkdown] returns it
    unchanged, exclamation marks, parentheses and closing brackets
    included. *)
Theorem X18_text_without_markers_is_unchanged :
  forall s : jsstring, Forall markerFree s -> stripMarkdown s = s.
Proof. apply stripMarkdown_markerFree. Qed.

Lemma markerFree_sample : Forall markerFree (js "Setup (v2)! ok]").
Proof. repeat constructor; by vm_compute. Defined.

Lemma X18_text_without_markers_witness :
  stripMarkdown (js "Setup (v2)! ok]") = js "Setup (v2)! ok]".
Proof.
  apply (X18_text_without_markers_is_unchanged (js "Setup (v2)! ok]")).
  exact markerFree_sample.
Defined.

Lemma replaceAll_link_no_bracket s :
  Forall (fun c => c <> ch "[") s -> replaceAll linkRe 1 s = s.
Proof.
  intros Hs. apply replaceFrom_no_match; [by vm_compute|].
  eapply Forall_impl; [exact Hs|]. intros c Hc t. by apply exec_link_none.
Qed.

Lemma replaceAll_bold_no_delimiter s :
  Forall (fun c => c <> ch "*" /\ c <> ch "_") s -> replaceAll boldRe 2 s = s.
Proof.
  intros Hs. apply replaceFrom_no_match; [by vm_compute|].
  eapply Forall_impl; [exact Hs|]. intros c [? ?] t. by apply exec_bold_none.
Qed.

Lemma replaceAll_italic_no_delimiter s :
  Forall (fun c => c <> ch "*" /\ c <> ch "_") s -> replaceAll italicRe 2 s = s.
Proof.
  intros Hs. apply replaceFrom_no_match; [by vm_compute|].
  eapply Forall_impl; [exact Hs|]. intros c [? ?] t. by apply exec_italic_none.
Qed.

Lemma replaceAll_code_no_backtick s :
  Forall (fun c => c <> ch "`") s -> replaceAll codeRe 1 s = s.
Proof.
  intros Hs. apply replaceFrom_no_match; [by vm_compute|].
  eapply Forall_impl; [exact Hs|]. intros c Hc t. by apply exec_code_none.
Qed.

Lemma replaceAll_image_no_bracket s :
  Forall (fun c => c <> ch "[") s -> replaceAll imageRe 1 s = s.
Proof. apply replaceFrom_image_no_bracket. Qed.

Lemma markerFree_bracket s : Forall markerFree s -> Forall (fun c => c <> ch "[") s.
Proof. intros Hs. eapply Forall_impl; [exact Hs|]. intros c Hc. apply Hc. Qed.

Lemma markerFree_delimiter s :
  Forall markerFree s -> Forall (fun c => c <> ch "*" /\ c <> ch "_") s.
Proof.
  intros Hs. eapply Forall_impl; [exact Hs|]. intros c Hc. split; apply Hc.
Qed.

Lemma markerFree_backtick s : Forall markerFree s -> Forall (fun c => c <> ch "`") s.
Proof. intros Hs. eapply Forall_impl; [exact Hs|]. intros c Hc. apply Hc. Qed.

Lemma markerFree_none r s :
  (forall c, markerFree c -> forall t, exec r (c :: t) = None) ->
  Forall markerFree s -> Forall (fun c => forall t, exec r (c :: t) = None) s.
Proof. intros Hr Hs. eapply Forall_impl; [exact Hs|]. exact Hr. Qed.

(** [stripMarkdown] of a text with one link between two stretches free of
    markers. *)
Lemma stripMarkdown_link pre label url post :
  Forall markerFree pre -> Forall markerFree post ->
  label <> [] -> Forall markerFree label -> Forall (fun c => c <> ch "]") label ->
  url <> [] -> Forall (fun c => c <> ch ")") url ->
  stripMarkdown (pre ++ linkText label url ++ post) = pre ++ label ++ post.
Proof.
  intros Hpre Hpost Hne Hlabel Hnb Hurl Hnp.
  destruct (exec_link label url post Hne Hnb Hurl Hnp) as (caps & Hexec & Hcap).
  assert (Hlink : replaceAll linkRe 1 (pre ++ linkText label url ++ post)
                  = pre ++ label ++ post).
  { assert (Hexec' : exec linkRe
              (ch "[" :: (label ++ ch "]" :: ch "(" :: url ++ [ch ")"]) ++ post)
              = Some (caps, post)).
    { rewrite <- Hexec. f_equal. f_equal.
      rewrite <- app_assoc. simpl. by rewrite <- app_assoc. }
    unfold linkText.
    change (pre ++ (ch "[" :: label ++ ch "]" :: ch "(" :: url ++ [ch ")"]) ++ post)
      with (pre ++ ch "[" :: (label ++ ch "]" :: ch "(" :: url ++ [ch ")"]) ++ post).
    rewrite (replaceAll_one_match linkRe 1 pre (ch "[") _ post caps); [by rewrite Hcap|by vm_compute| |done|].
    - apply (markerFree_none linkRe); [|done].
      intros c Hc. by apply markerFree_no_match.
    - apply (markerFree_none linkRe); [|done].
      intros c Hc. by apply markerFree_no_match. }
  assert (Hfree : Forall markerFree (pre ++ label ++ post))
    by (by rewrite !Forall_app).
  unfold stripMarkdown. rewrite Hlink.
  rewrite replaceAll_bold_no_delimiter by (by apply markerFree_delimiter).
  rewrite replaceAll_italic_no_delimiter by (by apply markerFree_delimiter).
  rewrite replaceAll_code_no_backtick by (by apply markerFree_backtick).
  by rewrite replaceAll_image_no_bracket by (by apply markerFree_bracket).
Qed.

(** X19: a link between two stretches of text without markers is replaced
    by its label: for a non-empty label without markers and closing
    brackets, and a non-empty target without [)], [stripMarkdown] returns
    the text before, the label and the text after, and drops the
    target. *)
Theorem X19_link_is_replaced_by_its_label :
  forall pre label url post : jsstring,
    Forall markerFree pre -> Forall markerFree post ->
    label <> [] -> Forall markerFree label ->
    Forall (fun c => c <> ch "]") label ->
    url <> [] -> Forall (fun c => c <> ch ")") url ->
    stripMarkdown (pre ++ linkText label url ++ post) = pre ++ label ++ post.
Proof. apply stripMarkdown_link. Qed.

Lemma markerFree_see : Forall markerFree (js "See ").
Proof. repeat constructor; by vm_compute. Defined.

Lemma markerFree_docs : Forall markerFree (js "the docs").
Proof. repeat constructor; by vm_compute. Defined.

Lemma no_bracket_docs : Forall (fun c => c <> ch "]") (js "the docs").
Proof. repeat constructor; by vm_compute. Defined.

Lemma markerFree_first : Forall markerFree (js " first").
Proof. repeat constructor; by vm_compute. Defined.

Lemma no_paren_url : Forall (fun c => c <> ch ")") (js "#docs").
Proof. repeat constructor; by vm_compute. Defined.

Lemma X19_link_witness :
  stripMarkdown (js "See " ++ linkText (js "the docs") (js "#docs") ++ js " first")
  = js "See " ++ js "the docs" ++ js " first".
Proof.
  apply (X19_link_is_replaced_by_its_label (js "See ") (js "the docs")
           (js "#docs") (js " first")).
  - exact markerFree_see.
  - exact markerFree_first.
  - discriminate.
  - exact markerFree_docs.
  - exact no_bracket_docs.
  - discriminate.
  - exact no_paren_url.
Defined.

Lemma delimiter_not_bracket d :
  d = ch "*" \/ d = ch "_" -> d <> ch "[" /\ d <> ch "`".
Proof. intros [-> | ->]; by vm_compute. Qed.

Lemma markerFree_not_delimiter d s :
  d = ch "*" \/ d = ch "_" -> Forall markerFree s -> Forall (fun c => c <> d) s.
Proof.
  intros Hd Hs. eapply Forall_impl; [exact Hs|].
  intros c (_ & H1 & H2 & _). by destruct Hd as [-> | ->].
Qed.

Lemma after_emphasis_markerFree s :
  Forall markerFree s ->
  replaceAll imageRe 1 (replaceAll codeRe 1 s) = s.
Proof.
  intros Hs.
  rewrite replaceAll_code_no_backtick by (by apply markerFree_backtick).
  by rewrite replaceAll_image_no_bracket by (by apply markerFree_bracket).
Qed.

(** [stripMarkdown] of a text with one bold stretch between two stretches
    free of markers. *)
Lemma stripMarkdown_bold d pre x post :
  d = ch "*" \/ d = ch "_" ->
  Forall markerFree pre -> Forall markerFree post ->
  Forall markerFree x -> Forall notLineTerminator x ->
  stripMarkdown (pre ++ [d; d] ++ x ++ [d; d] ++ post) = pre ++ x ++ post.
Proof.
  intros Hd Hpre Hpost Hx Hdot.
  destruct (delimiter_not_bracket d Hd) as [Hdb Hdt].
  destruct (exec_bold d x post Hd Hdot (markerFree_not_delimiter d x Hd Hx))
    as (caps & Hexec & Hcap).
  assert (Hfree : Forall markerFree (pre ++ x ++ post))
    by (by rewrite !Forall_app).
  unfold stripMarkdown.
  rewrite replaceAll_link_no_bracket.
  2:{ rewrite !Forall_app, !Forall_cons.
      repeat split; try done; try by apply markerFree_bracket. }
  assert (Hexec' : exec boldRe (d :: (d :: x ++ [d; d]) ++ post) = Some (caps, post)).
  { rewrite <- Hexec. f_equal. f_equal. simpl. f_equal.
    by rewrite <- app_assoc. }
  change (pre ++ [d; d] ++ x ++ [d; d] ++ post)
    with (pre ++ d :: d :: x ++ [d; d] ++ post).
  replace (pre ++ d :: d :: x ++ [d; d] ++ post)
    with (pre ++ d :: (d :: x ++ [d; d]) ++ post)
    by (simpl; by rewrite <- app_assoc).
  rewrite (replaceAll_one_match boldRe 2 pre d _ post caps);
    [|by vm_compute| |done|].
  2,3: apply (markerFree_none boldRe); [|done];
       intros c Hc; by apply markerFree_no_match.
  rewrite Hcap.
  rewrite replaceAll_italic_no_delimiter by (by apply markerFree_delimiter).
  by apply after_emphasis_markerFree.
Qed.

(** The bold replacement passes over a stretch in single delimiters. *)
Lemma replaceAll_bold_single d pre x post :
  d = ch "*" \/ d = ch "_" ->
  Forall markerFree pre -> Forall markerFree post ->
  x <> [] -> Forall markerFree x ->
  replaceAll boldRe 2 (pre ++ d :: x ++ d :: post) = pre ++ d :: x ++ d :: post.
Proof.
  intros Hd Hpre Hpost Hne Hx. unfold replaceAll.
  assert (Hnone : forall s, Forall markerFree s ->
            Forall (fun c => forall t, exec boldRe (c :: t) = None) s).
  { intros s. apply (markerFree_none boldRe).
    intros c Hc. by apply markerFree_no_match. }
  rewrite replaceFrom_app_no_match by (by apply Hnone). f_equal.
  destruct x as [|a x]; [done|].
  assert (Ha : a <> d).
  { apply Forall_cons in Hx as [(_ & H1 & H2 & _) _]. by destruct Hd as [-> | ->]. }
  rewrite replaceFrom_cons_none by (by apply exec_bold_single_none). f_equal.
  rewrite replaceFrom_app_no_match by (by apply Hnone). f_equal.
  rewrite replaceFrom_cons_none.
  - f_equal. apply replaceFrom_no_match; [by vm_compute|by apply Hnone].
  - destruct post as [|c post]; [by apply exec_bold_alone_none|].
    apply exec_bold_single_none; [done|].
    apply Forall_cons in Hpost as [(_ & H1 & H2 & _) _].
    by destruct Hd as [-> | ->].
Qed.

(** [stripMarkdown] of a text with one italic stretch between two
    stretches free of markers. *)
Lemma stripMarkdown_italic d pre x post :
  d = ch "*" \/ d = ch "_" ->
  Forall markerFree pre -> Forall markerFree post ->
  x <> [] -> Forall markerFree x -> Forall notLineTerminator x ->
  stripMarkdown (pre ++ [d] ++ x ++ [d] ++ post) = pre ++ x ++ post.
Proof.
  intros Hd Hpre Hpost Hne Hx Hdot.
  destruct (delimiter_not_bracket d Hd) as [Hdb Hdt].
  destruct (exec_italic d x post Hd Hdot (markerFree_not_delimiter d x Hd Hx))
    as (caps & Hexec & Hcap).
  assert (Hfree : Forall markerFree (pre ++ x ++ post))
    by (by rewrite !Forall_app).
  unfold stripMarkdown.
  rewrite replaceAll_link_no_bracket.
  2:{ rewrite !Forall_app, !Forall_cons.
      repeat split; try done; try by apply markerFree_bracket. }
  change (pre ++ [d] ++ x ++ [d] ++ post) with (pre ++ d :: x ++ d :: post).
  rewrite replaceAll_bold_single by done.
  assert (Hexec' : exec italicRe (d :: (x ++ [d]) ++ post) = Some (caps, post)).
  { rewrite <- Hexec. f_equal. f_equal. by rewrite <- app_assoc. }
  replace (pre ++ d :: x ++ d :: post) with (pre ++ d :: (x ++ [d]) ++ post)
    by (by rewrite <- app_assoc).
  rewrite (replaceAll_one_match italicRe 2 pre d _ post caps);
    [|by vm_compute| |done|].
  2,3: apply (markerFree_none italicRe); [|done];
       intros c Hc; by apply markerFree_no_match.
  rewrite Hcap. by apply after_emphasis_markerFree.
Qed.

(** [stripMarkdown] of a text with one code span between two stretches
    free of markers. *)
Lemma stripMarkdown_code pre x post :
  Forall markerFree pre -> Forall markerFree post ->
  x <> [] -> Forall markerFree x ->
  stripMarkdown (pre ++ [ch "`"] ++ x ++ [ch "`"] ++ post) = pre ++ x ++ post.
Proof.
  intros Hpre Hpost Hne Hx.
  destruct (exec_code x post Hne (markerFree_backtick x Hx))
    as (caps & Hexec & Hcap).
  assert (Hfree : Forall markerFree (pre ++ x ++ post))
    by (by rewrite !Forall_app).
  assert (Hall : Forall (fun c => c <> ch "[" /\ c <> ch "*" /\ c <> ch "_")
                   (pre ++ [ch "`"] ++ x ++ [ch "`"] ++ post)).
  { rewrite !Forall_app, !Forall_cons.
    repeat split; try done; try by vm_compute.
    all: eapply Forall_impl; [eassumption|]; intros c (? & ? & ? & _); done. }
  unfold stripMarkdown.
  rewrite replaceAll_link_no_bracket
    by (eapply Forall_impl; [exact Hall|]; by intros c (? & _)).
  rewrite replaceAll_bold_no_delimiter
    by (eapply Forall_impl; [exact Hall|]; by intros c (_ & ? & ?)).
  rewrite replaceAll_italic_no_delimiter
    by (eapply Forall_impl; [exact Hall|]; by intros c (_ & ? & ?)).
  assert (Hexec' : exec codeRe (ch "`" :: (x ++ [ch "`"]) ++ post) = Some (caps, post)).
  { rewrite <- Hexec. f_equal. f_equal. by rewrite <- app_assoc. }
  change (pre ++ [ch "`"] ++ x ++ [ch "`"] ++ post)
    with (pre ++ ch "`" :: x ++ ch "`" :: post).
  replace (pre ++ ch "`" :: x ++ ch "`" :: post)
    with (pre ++ ch "`" :: (x ++ [ch "`"]) ++ post)
    by (by rewrite <- app_assoc).
  rewrite (replaceAll_one_match codeRe 1 pre (ch "`") _ post caps);
    [|by vm_compute| |done|].
  2,3: apply (markerFree_none codeRe); [|done];
       intros c Hc; by apply markerFree_no_match.
  rewrite Hcap.
  by rewrite replaceAll_image_no_bracket by (by apply markerFree_bracket).
Qed.

(** X20: emphasis markers around a stretch of text are removed and the
    text is kept: between two stretches without markers, a stretch in
    doubled stars or doubled underscores, and a non-empty stretch in
    single stars or single underscores, is replaced by the stretch
    itself. *)
Theorem X20_emphasis_markers_are_removed :
  forall (d : N) (pre x post : jsstring),
    d = ch "*" \/ d = ch "_" ->
    Forall markerFree pre -> Forall markerFree post ->
    Forall markerFree x -> Forall notLineTerminator x ->
    stripMarkdown (pre ++ [d; d] ++ x ++ [d; d] ++ post) = pre ++ x ++ post /\
    (x <> [] ->
     stripMarkdown (pre ++ [d] ++ x ++ [d] ++ post) = pre ++ x ++ post).
Proof.
  intros d pre x post Hd Hpre Hpost Hx Hdot. split.
  - by apply stripMarkdown_bold.
  - intros Hne. by apply stripMarkdown_italic.
Qed.

Lemma markerFree_my : Forall markerFree (js "My ").
Proof. repeat constructor; by vm_compute. Defined.

Lemma markerFree_big : Forall markerFree (js "big").
Proof. repeat constructor; by vm_compute. Defined.

Lemma notLineTerminator_big : Forall notLineTerminator (js "big").
Proof. repeat constructor; by vm_compute. Defined.

Lemma markerFree_plan : Forall markerFree (js " plan").
Proof. repeat constructor; by vm_compute. Defined.

Lemma X20_emphasis_witness :
  stripMarkdown (js "My " ++ [ch "_"; ch "_"] ++ js "big" ++ [ch "_"; ch "_"] ++ js " plan")
    = js "My " ++ js "big" ++ js " plan" /\
  (js "big" <> [] ->
   stripMarkdown (js "My " ++ [ch "_"] ++ js "big" ++ [ch "_"] ++ js " plan")
     = js "My " ++ js "big" ++ js " plan").
Proof.
  apply (X20_emphasis_markers_are_removed (ch "_") (js "My ") (js "big") (js " plan")).
  - by right.
  - exact markerFree_my.
  - exact markerFree_plan.
  - exact markerFree_big.
  - exact notLineTerminator_big.
Defined.

(** X21: the backticks of an inline code span are removed and its text is
    kept: between two stretches without markers, a non-empty stretch
    without markers in backticks is replaced by the stretch itself. *)
Theorem X21_code_markers_are_removed :
  forall pre x post : jsstring,
    Forall markerFree pre -> Forall markerFree post ->
    x <> [] -> Forall markerFree x ->
    stripMarkdown (pre ++ [ch "`"] ++ x ++ [ch "`"] ++ post) = pre ++ x ++ post.
Proof. apply stripMarkdown_code. Qed.

Lemma X21_code_witness :
  stripMarkdown (js "My " ++ [ch "`"] ++ js "big" ++ [ch "`"] ++ js " plan")
  = js "My " ++ js "big" ++ js " plan".
Proof.
  apply (X21_code_markers_are_removed (js "My ") (js "big") (js " plan")).
  - exact markerFree_my.
  - exact markerFree_plan.
  - discriminate.
  - exact markerFree_big.
Defined.

(** ** A replacement never lengthens the text *)

Lemma stripPrefix_length p : forall s s',
  stripPrefix p s = Some s' -> (length s' <= length s)%nat.
Proof.
  induction p as [|a p IH]; intros s s' Hs; simpl in Hs.
  - by simplify_eq.
  - destruct s as [|b s]; [done|]. destruct (N.eqb a b); [|done].
    apply IH in Hs. simpl. lia.
Qed.

Lemma starGreedy_reaches {R : Type} (p : N -> bool) (k : jsstring -> option R) res :
  forall s, starGreedy p s k = Some res ->
    exists s1, k s1 = Some res /\ (length s1 <= length s)%nat.
Proof.
  induction s as [|c s IH]; simpl; intros Hs; [by exists []|].
  destruct (p c); [|by exists (c :: s)].
  destruct (starGreedy p s k) as [r|] eqn:Hrec.
  - simplify_eq. destruct (IH eq_refl) as (s1 & Hk & Hlen).
    exists s1. split; [done|lia].
  - by exists (c :: s).
Qed.

Lemma starLazy_reaches {R : Type} (p : N -> bool) (k : jsstring -> option R) res :
  forall s, starLazy p s k = Some res ->
    exists s1, k s1 = Some res /\ (length s1 <= length s)%nat.
Proof.
  induction s as [|c s IH]; simpl; intros Hs.
  - destruct (k []) eqn:Hk; [|done]. simplify_eq. by exists [].
  - destruct (k (c :: s)) eqn:Hk.
    + simplify_eq. by exists (c :: s).
    + destruct (p c); [|done]. destruct (IH Hs) as (s1 & Hk1 & Hlen).
      exists s1. split; [done|lia].
Qed.

(** A successful match has called its continuation on a suffix that is not
    longer than the input, with captures that are not longer than what was
    consumed up to there (or than they were). *)
Lemma rmatch_reaches {R : Type} (r : regex) :
  forall (s : jsstring) (caps : captures) (k : jsstring -> captures -> option R) res,
    rmatch r s caps k = Some res ->
    exists s1 caps1,
      k s1 caps1 = Some res /\
      (length s1 <= length s)%nat /\
      forall n, (length (caps1 n)
                 <= Nat.max (length (caps n)) (length s - length s1))%nat.
Proof.
  induction r as [|c|negated set|a IHa b IHb|a IHa b IHb|greedy negated set|n a IHa|n];
    intros s caps k res Hm; simpl in Hm.
  - exists s, caps. split; [done|]. split; [done|]. intros n. lia.
  - destruct s as [|x s]; [done|]. destruct (N.eqb x c); [|done].
    exists s, caps. split; [done|]. simpl. split; [lia|]. intros n. lia.
  - destruct s as [|x s]; [done|]. destruct (inClass negated set x); [|done].
    exists s, caps. split; [done|]. simpl. split; [lia|]. intros n. lia.
  - destruct (IHa _ _ _ _ Hm) as (s1 & c1 & Hb & Hl1 & Hc1).
    destruct (IHb _ _ _ _ Hb) as (s2 & c2 & Hk & Hl2 & Hc2).
    exists s2, c2. split; [done|]. split; [lia|].
    intros n. specialize (Hc1 n). specialize (Hc2 n). lia.
  - destruct (rmatch a s caps k) as [x|] eqn:Ha.
    + simplify_eq. by apply IHa.
    + by apply IHb.
  - destruct greedy.
    + destruct (starGreedy_reaches _ _ _ _ Hm) as (s1 & Hk & Hl).
      exists s1, caps. split; [done|]. split; [done|]. intros n. lia.
    + destruct (starLazy_reaches _ _ _ _ Hm) as (s1 & Hk & Hl).
      exists s1, caps. split; [done|]. split; [done|]. intros n. lia.
  - destruct (IHa _ _ _ _ Hm) as (s1 & c1 & Hk & Hl1 & Hc1).
    eexists s1, _. split; [exact Hk|]. split; [done|].
    intros m. unfold setCapture. destruct (Nat.eqb m n).
    + rewrite length_take. lia.
    + apply Hc1.
  - destruct (stripPrefix (caps n) s) as [s'|] eqn:Hp; [|done].
    apply stripPrefix_length in Hp.
    exists s', caps. split; [done|]. split; [done|]. intros m. lia.
Qed.

Lemma exec_bound r s caps rest :
  exec r s = Some (caps, rest) ->
  (length rest <= length s)%nat /\
  forall n, (length (caps n) <= length s - length rest)%nat.
Proof.
  intros Hm. unfold exec in Hm.
  destruct (rmatch_reaches r s noCaptures _ _ Hm) as (s1 & c1 & Hk & Hl & Hc).
  simplify_eq. split; [done|]. intros n. specialize (Hc n).
  unfold noCaptures in Hc. simpl in Hc. lia.
Qed.

Lemma replaceFrom_length r grp : forall s skip,
  (length (replaceFrom r grp skip s) <= length s - skip)%nat.
Proof.
  induction s as [|c s IH]; intros skip.
  - simpl. destruct skip; [|simpl; lia].
    destruct (exec r []) as [[caps rest]|] eqn:He; [|simpl; lia].
    destruct (exec_bound r [] caps rest He) as [_ Hc].
    specialize (Hc grp). simpl in *. lia.
  - cbn [replaceFrom]. destruct skip as [|n].
    + destruct (exec r (c :: s)) as [[caps rest]|] eqn:He.
      * destruct (exec_bound r (c :: s) caps rest He) as [Hl Hc].
        specialize (Hc grp).
        destruct (length (c :: s) - length rest)%nat as [|m] eqn:Hcons.
        -- rewrite length_app. simpl. specialize (IH 0%nat). lia.
        -- rewrite length_app. specialize (IH m). simpl in *. lia.
      * simpl. specialize (IH 0%nat). lia.
    + specialize (IH n). simpl. lia.
Qed.

Lemma replaceAll_length r grp s : (length (replaceAll r grp s) <= length s)%nat.
Proof. pose proof (replaceFrom_length r grp s 0). unfold replaceAll. lia. Qed.

(** X22: stripping never lengthens a text: each of the replacements puts a
    part of the match in the place of the match, so the label that
    [stripMarkdown] returns has at most as many characters as the heading
    text, and so has the result of a replacement by a group for every
    pattern of the matcher. *)
Theorem X22_stripMarkdown_never_lengthens :
  forall s : jsstring,
    (length (stripMarkdown s) <= length s)%nat /\
    forall (r : regex) (grp : nat),
      (length (replaceAll r grp s) <= length s)%nat.
Proof.
  intros s. split; [|intros r grp; apply replaceAll_length].
  unfold stripMarkdown.
  pose proof (replaceAll_length linkRe 1 s).
  pose proof (replaceAll_length boldRe 2 (replaceAll linkRe 1 s)).
  pose proof (replaceAll_length italicRe 2
                (replaceAll boldRe 2 (replaceAll linkRe 1 s))).
  pose proof (replaceAll_length codeRe 1
                (replaceAll italicRe 2
                   (replaceAll boldRe 2 (replaceAll linkRe 1 s)))).
  pose proof (replaceAll_length imageRe 1
                (replaceAll codeRe 1
                   (replaceAll italicRe 2
                      (replaceAll boldRe 2 (replaceAll linkRe 1 s))))).
  lia.
Qed.

(** ** The newest loops and the loops of the first version *)

Lemma early_scanItems currentLine items : forall i acc,
  Early.scanItems currentLine i items acc = scanItems true currentLine i items acc.
Proof.
  induction items as [|item rest IH]; intros i acc; simpl; [done|].
  destruct (data_line item <=? currentLine); [apply IH|done].
Qed.

Lemma scanActiveIndex_cursor_unclamped currentLine items :
  scanActiveIndex true currentLine items = scanItems true currentLine 0 items (-1).
Proof.
  unfold scanActiveIndex. rewrite scanItems_readPrefix.
  pose proof (readPrefix_le currentLine items) as Hle.
  destruct (readPrefix currentLine items) as [|n].
  - destruct (_ >=? _) eqn:Hge; [apply Z.geb_le in Hge; lia|done].
  - destruct (_ >=? _) eqn:Hge; [apply Z.geb_le in Hge; lia|done].
Qed.

(** X23: the scan that the newest version makes for a cursor line computes
    what the scan of the first version computes: the overflow guard added
    since never changes the index of a cursor scan, and only the scan from
    the scroll position, which looks one item ahead, differs. *)
Theorem X23_cursor_scan_agrees_with_first_version :
  forall (currentLine : Z) (items : list Item),
    scanActiveIndex true currentLine items = Early.scanActiveIndex currentLine items /\
    (scanActiveIndex false currentLine items
       <> Early.scanActiveIndex currentLine items ->
     scanActiveIndex false currentLine items
       = Early.scanActiveIndex currentLine items + 1).
Proof.
  intros currentLine items.
  assert (Hcursor : scanActiveIndex true currentLine items
                    = Early.scanActiveIndex currentLine items).
  { unfold Early.scanActiveIndex.
    by rewrite early_scanItems, scanActiveIndex_cursor_unclamped. }
  split; [done|]. rewrite <- Hcursor.
  unfold scanActiveIndex. rewrite !scanItems_readPrefix.
  pose proof (readPrefix_le currentLine items) as Hle.
  destruct (readPrefix currentLine items) as [|n]; [done|].
  repeat match goal with |- context [?a >=? ?b] =>
    let H := fresh "Hge" in destruct (a >=? b) eqn:H;
    [apply Z.geb_le in H|rewrite Z.geb_leb in H; apply Z.leb_gt in H] end;
    intros ?; lia.
Qed.

Lemma early_findActiveDomHeader targetTop hs : forall acc,
  Early.findActiveDomHeader targetTop hs acc =
  match aboveCount targetTop hs with
  | O => acc
  | S k => hs !! k
  end.
Proof.
  induction hs as [|h rest IH]; intros acc; simpl; [done|].
  destruct (Qle_bool (hdr_top h) targetTop); [|done].
  rewrite IH. by destruct (aboveCount targetTop rest).
Qed.

(** X24: where the first version selects the last heading element at or
    above the target line, the newest version selects the element after
    it, and the same element when it is the last one; both select nothing
    when the first element is below the line. *)
Theorem X24_newest_version_selects_the_successor :
  forall (targetTop : Q) (hs : list DomHeader),
    (Early.findActiveDomHeader targetTop hs None = None <->
     findActiveDomHeader targetTop hs None = None) /\
    forall (j : nat) (h : DomHeader),
      aboveCount targetTop hs = S j ->
      hs !! j = Some h ->
      Early.findActiveDomHeader targetTop hs None = Some h /\
      findActiveDomHeader targetTop hs None
        = match hs !! S j with
          | Some next => Some next
          | None => Some h
          end.
Proof.
  intros targetTop hs.
  rewrite early_findActiveDomHeader, findActiveDomHeader_aboveCount.
  pose proof (aboveCount_le targetTop hs) as Hle.
  destruct (aboveCount targetTop hs) as [|k] eqn:Hk.
  - split; [done|]. intros j h Hj. lia.
  - split.
    + destruct (lookup_lt_is_Some_2 hs k ltac:(lia)) as [hk Hhk].
      rewrite Hhk. by destruct (hs !! S k).
    + intros j h Hj Hh. simplify_eq. rewrite Hh. done.
Qed.

Lemma X24_successor_witness :
  Early.findActiveDomHeader (previewTargetTop readingScroller)
    (domHeaders flagsView) None
    = Some {| hdr_top := -100; hdr_innerText := js "Usage";
              hdr_dataHeading := Some (js "Usage"); hdr_level := 2 |} /\
  findActiveDomHeader (previewTargetTop readingScroller) (domHeaders flagsView) None
    = match domHeaders flagsView !! 1%nat with
      | Some next => Some next
      | None => Some {| hdr_top := -100; hdr_innerText := js "Usage";
                        hdr_dataHeading := Some (js "Usage"); hdr_level := 2 |}
      end.
Proof.
  apply (proj2 (X24_newest_version_selects_the_successor
                  (previewTargetTop readingScroller) (domHeaders flagsView))
           0%nat).
  - by vm_compute.
  - reflexivity.
Defined.

Lemma early_firstMatch items level headerText : forall i,
  Early.firstMatch i items level headerText
  = match matchingFrom i items level headerText with
    | [] => -1
    | first :: _ => first
    end.
Proof.
  induction items as [|item rest IH]; intros i; simpl; [done|].
  destruct ((data_level item =? level) && jsstring_eqb (span_text item) headerText);
    [done|apply IH].
Qed.

Lemma chooseMatch_head last first rest :
  StronglySorted Z.lt (first :: rest) ->
  last <= first ->
  chooseMatch last (first :: rest) = first.
Proof.
  intros Hsorted Hlast.
  destruct (chooseMatch_first_closest last (first :: rest) ltac:(done))
    as (b & pre & post & -> & Hsplit & _ & Hpre).
  destruct pre as [|x pre]; simplify_eq/=; [done|].
  apply StronglySorted_inv in Hsorted as [_ Hall].
  rewrite Forall_forall in Hall.
  assert (x < b) by (apply Hall, elem_of_app; right; left).
  specialize (Hpre x ltac:(left)). lia.
Qed.

(** X25: duplicates are resolved as in the first version as long as the
    stored index is not after the first duplicate: when [lastActiveIndex]
    is at most the index of the first matching item, in particular when it
    is still -1, the proximity rule selects the first matching item, which
    is the item at which the matching loop of the first version breaks. *)
Theorem X25_proximity_selects_first_match_from_the_left :
  forall (items : list Item) (level : Z) (headerText : jsstring) (last : Z),
    matchingIndices items level headerText <> [] ->
    last <= Early.matchedIndex items level headerText ->
    chooseMatch last (matchingIndices items level headerText)
      = Early.matchedIndex items level headerText.
Proof.
  intros items level headerText last Hne Hlast.
  unfold Early.matchedIndex in *. rewrite early_firstMatch in *.
  fold (matchingIndices items level headerText) in *.
  pose proof (matchingFrom_ascending items level headerText 0) as Hsorted.
  fold (matchingIndices items level headerText) in Hsorted.
  destruct (matchingIndices items level headerText) as [|first rest]; [done|].
  by apply chooseMatch_head.
Qed.

Lemma X25_first_match_witness :
  chooseMatch (-1) (matchingIndices duplicateOutline 2 (js "Notes"))
  = Early.matchedIndex duplicateOutline 2 (js "Notes").
Proof.
  apply (X25_proximity_selects_first_match_from_the_left duplicateOutline 2
           (js "Notes") (-1)).
  - by vm_compute.
  - by vm_compute.
Defined.

(** ** The source scan follows the line *)

Lemma readPrefix_mono l l' items :
  l <= l' -> (readPrefix l items <= readPrefix l' items)%nat.
Proof.
  intros Hl. induction items as [|item rest IH]; simpl; [done|].
  destruct (data_line item <=? l) eqn:H1; [|lia].
  apply Z.leb_le in H1.
  rewrite (proj2 (Z.leb_le (data_line item) l') ltac:(lia)). lia.
Qed.

Lemma scanActiveIndex_mono specific l l' items :
  l <= l' ->
  scanActiveIndex specific l items <= scanActiveIndex specific l' items.
Proof.
  intros Hl. unfold scanActiveIndex. rewrite !scanItems_readPrefix.
  pose proof (readPrefix_mono l l' items Hl) as Hmono.
  pose proof (readPrefix_le l' items) as Hle.
  destruct (readPrefix l items) as [|n], (readPrefix l' items) as [|n'],
    specific; try lia;
    repeat match goal with |- context [?a >=? ?b] =>
      let H := fresh "Hge" in destruct (a >=? b) eqn:H;
      [apply Z.geb_le in H|rewrite Z.geb_leb in H; apply Z.leb_gt in H] end;
    lia.
Qed.

(** X26: the source scan never moves backwards when the line moves
    forwards: for a later cursor line, or a later estimated line, the index
    it computes is the same or a later one, whatever the order of the
    items. *)
Theorem X26_source_scan_is_monotone :
  forall (specific : bool) (l l' : Z) (items : list Item),
    l <= l' ->
    scanActiveIndex specific l items <= scanActiveIndex specific l' items.
Proof. apply scanActiveIndex_mono. Qed.

Lemma X26_monotone_witness :
  scanActiveIndex true 12 sampleItems <= scanActiveIndex true 40 sampleItems.
Proof.
  apply (X26_source_scan_is_monotone true 12 40 sampleItems). lia.
Defined.

(** ** An empty panel *)

Lemma highlight_preview_empty p view specificLine :
  containerEl p = Some [] ->
  getMode view = preview ->
  highlightActiveHeader p view specificLine = p.
Proof.
  intros Hc Hm. unfold highlightActiveHeader. rewrite Hc, Hm.
  destruct (getScroller view) as [s|]; [|done].
  rewrite andb_false_r.
  destruct (previewMatch_cases p view s [])
    as [->|(level & headerText & m & _ & Hmatch & _)]; [done|].
  apply matches_lt in Hmatch. simpl in Hmatch. lia.
Qed.

(** X27: with a panel that has no item, the preview resolver changes
    nothing, at every scroll position; the source resolver keeps the panel
    empty, and stores index 0 when the editor is scrolled less than 50
    pixels, although no item has that index, and keeps the stored index
    otherwise. *)
Theorem X27_resolver_on_an_empty_panel :
  forall (p : Plugin) (view : View) (specificLine : option Z),
    containerEl p = Some [] ->
    (getMode view = preview -> highlightActiveHeader p view specificLine = p) /\
    (getMode view = source ->
     containerEl (highlightActiveHeader p view specificLine) = Some [] /\
     forall ed, editor view = Some ed ->
       ((scrollInfo_top ed < 50)%Q ->
        lastActiveIndex (highlightActiveHeader p view specificLine) = 0) /\
       ((50 <= scrollInfo_top ed)%Q ->
        lastActiveIndex (highlightActiveHeader p view specificLine)
          = lastActiveIndex p)).
Proof.
  intros p view specificLine Hc. split.
  - intros Hm. by apply highlight_preview_empty.
  - intros Hm. rewrite (highlight_source p view specificLine [] Hc Hm). simpl.
    split.
    { f_equal. apply nil_length_inv. by rewrite length_updateActiveItem. }
    intros ed Hed.
    unfold sourceIndex, sourceActiveIndex. rewrite Hed.
    split; intros Htop.
    + by rewrite (proj2 (Qlt_bool_true _ _) Htop).
    + by rewrite (proj2 (Qlt_bool_false _ _) Htop).
Qed.

Lemma X27_empty_panel_witness :
  (getMode topSourceView = preview ->
   highlightActiveHeader (updateToc initialPlugin (Some (sourceView [])))
     topSourceView None
   = updateToc initialPlugin (Some (sourceView []))) /\
  (getMode topSourceView = source ->
   containerEl (highlightActiveHeader
                  (updateToc initialPlugin (Some (sourceView [])))
                  topSourceView None) = Some [] /\
   forall ed, editor topSourceView = Some ed ->
     ((scrollInfo_top ed < 50)%Q ->
      lastActiveIndex (highlightActiveHeader
                         (updateToc initialPlugin (Some (sourceView [])))
                         topSourceView None) = 0) /\
     ((50 <= scrollInfo_top ed)%Q ->
      lastActiveIndex (highlightActiveHeader
                         (updateToc initialPlugin (Some (sourceView [])))
                         topSourceView None)
        = lastActiveIndex (updateToc initialPlugin (Some (sourceView []))))).
Proof.
  apply (X27_resolver_on_an_empty_panel
           (updateToc initialPlugin (Some (sourceView []))) topSourceView None).
  reflexivity.
Defined.
